(** * Adaptive attack-surface mapper: risk engine and port scanner

    A shallow embedding of [risk_engine.py] (class [RiskEngine]), of
    [scanner.py] (class [PortScanner]) and of the route [scan] of
    [app.py] that puts them together.

    Conventions of the embedding:
    - a Python [dict] used as a table is a [gmap]; a subscript [d[k]] that
      raises [KeyError] on a missing key is a lookup in the [option] monad,
      [None] standing for the raised exception;
    - a Python [dict] used as a record is a Rocq [Record];
    - Python integers are [Z];
    - an f-string is a concatenation, an integer being formatted in
      decimal by [pretty]. *)

From Stdlib Require Import ZArith Lia Ascii String.
From stdpp Require Import base option list strings gmap fin_maps pretty sorting.

Local Open Scope string_scope.
Local Open Scope Z_scope.
Local Open Scope list_scope.

(** ** Records *)

(** An entry of [RISK_LEVELS]. *)
Module LevelInfo.
Record t := mk { score : Z; color : string }.
End LevelInfo.

(** An entry of [SERVICE_RISKS]. *)
Module Profile.
Record t := mk { risk : string; reason : string; mitigation : string }.
End Profile.

(** An element of the list returned by [PortScanner.scan]. *)
Module PortInfo.
Record t := mk { port : Z; service : string }.
End PortInfo.

(** An element of the list returned by [RiskEngine.assess_risks]. *)
Module Assessment.
Record t := mk {
  port : Z;
  service : string;
  risk_level : string;
  risk_color : string;
  reason : string;
  mitigation : string
}.
End Assessment.

(** The dictionary returned by [RiskEngine.get_security_rating]. *)
Module Rating.
Record t := mk { rating : string; description : string; color : string }.
End Rating.

(** The dictionary returned by [RiskEngine.generate_executive_summary]. *)
Module Summary.
Record t := mk {
  security_score : Z;
  rating : string;
  rating_description : string;
  rating_color : string;
  total_open_ports : Z;
  high_risk_count : Z;
  medium_risk_count : Z;
  low_risk_count : Z;
  priority_actions : list string
}.
End Summary.

(** Python's [len], an integer. *)
Definition len {A} (l : list A) : Z := Z.of_nat (length l).

(** ** The risk engine *)

Module RiskEngine.

Definition RISK_LEVELS : gmap string LevelInfo.t :=
  list_to_map [
    ("HIGH", LevelInfo.mk 30 "#dc3545");
    ("MEDIUM", LevelInfo.mk 15 "#ffc107");
    ("LOW", LevelInfo.mk 5 "#28a745")
  ].

Definition SERVICE_RISKS_items : list (string * Profile.t) := [
  ("Telnet", Profile.mk "HIGH"
     "Unencrypted protocol transmitting credentials in plaintext"
     "Replace with SSH. Disable Telnet service immediately.");
  ("FTP", Profile.mk "HIGH"
     "Unencrypted file transfer with plaintext authentication"
     "Use SFTP or FTPS. Configure with strong authentication.");
  ("SMB", Profile.mk "HIGH"
     "Vulnerable to ransomware and lateral movement attacks"
     "Restrict access with firewall rules. Keep SMB version updated. Enable SMB signing.");
  ("RDP", Profile.mk "HIGH"
     "Common target for brute-force attacks and exploitation"
     "Use VPN for access. Enable Network Level Authentication. Implement MFA.");
  ("VNC", Profile.mk "HIGH"
     "Often configured with weak passwords or no encryption"
     "Use SSH tunneling. Implement strong authentication. Consider alternatives.");
  ("MySQL", Profile.mk "HIGH"
     "Database exposed to internet increases attack surface"
     "Bind to localhost only. Use firewall rules. Implement strong passwords.");
  ("PostgreSQL", Profile.mk "HIGH"
     "Database service should not be publicly accessible"
     "Restrict to internal network. Use pg_hba.conf properly. Enable SSL.");
  ("HTTP", Profile.mk "MEDIUM"
     "Unencrypted web traffic vulnerable to interception"
     "Implement HTTPS with valid SSL/TLS certificates. Redirect HTTP to HTTPS.");
  ("HTTP-Proxy", Profile.mk "MEDIUM"
     "Proxy service may allow unauthorized access"
     "Implement authentication. Restrict access by IP whitelist.");
  ("HTTPS-Alt", Profile.mk "MEDIUM"
     "Non-standard HTTPS port may be misconfigured"
     "Ensure proper SSL/TLS configuration. Use standard ports when possible.");
  ("SMTP", Profile.mk "MEDIUM"
     "Mail server can be abused for spam or relay attacks"
     "Configure SPF, DKIM, DMARC. Disable open relay. Use authentication.");
  ("POP3", Profile.mk "MEDIUM"
     "Unencrypted email retrieval protocol"
     "Use POP3S (SSL/TLS). Consider IMAP with encryption instead.");
  ("IMAP", Profile.mk "MEDIUM"
     "Email protocol without encryption"
     "Use IMAPS (SSL/TLS). Enforce strong authentication.");
  ("DNS", Profile.mk "MEDIUM"
     "DNS server may be vulnerable to amplification attacks"
     "Restrict recursive queries. Implement rate limiting. Use DNSSEC.");
  ("HTTPS", Profile.mk "LOW"
     "Encrypted web service (validate certificate and configuration)"
     "Keep SSL/TLS updated. Use strong ciphers. Monitor certificate expiration.");
  ("SSH", Profile.mk "LOW"
     "Secure but requires proper configuration"
     "Disable password auth. Use key-based authentication. Change default port.");
  ("FTP-DATA", Profile.mk "LOW"
     "FTP data channel (assess based on FTP configuration)"
     "Secure if using FTPS. Otherwise follow FTP mitigation strategies.");
  ("Unknown", Profile.mk "MEDIUM"
     "Unidentified service requires investigation"
     "Investigate service identity. Close if unnecessary. Ensure proper security.")
].

Definition SERVICE_RISKS : gmap string Profile.t :=
  list_to_map SERVICE_RISKS_items.

(** [self.SERVICE_RISKS.get(service, self.SERVICE_RISKS['Unknown'])]: the
    default is a subscript, evaluated before the call to [get]. *)
Definition get_risk_profile (service : string) : option Profile.t :=
  unknown ← SERVICE_RISKS !! "Unknown";
  Some (default unknown (SERVICE_RISKS !! service)).

(** The body of the [for] loop of [assess_risks]. *)
Definition assess_one (port_info : PortInfo.t) : option Assessment.t :=
  let port := PortInfo.port port_info in
  let service := PortInfo.service port_info in
  risk_profile ← get_risk_profile service;
  level ← RISK_LEVELS !! Profile.risk risk_profile;
  Some (Assessment.mk port service
          (Profile.risk risk_profile)
          (LevelInfo.color level)
          (Profile.reason risk_profile)
          (Profile.mitigation risk_profile)).

(** The loop of [assess_risks], [risk_results] being the list built so
    far. *)
Fixpoint assess_loop (risk_results : list Assessment.t)
    (open_ports : list PortInfo.t) : option (list Assessment.t) :=
  match open_ports with
  | [] => Some risk_results
  | port_info :: rest =>
      result ← assess_one port_info;
      assess_loop (risk_results ++ [result]) rest
  end.

Definition assess_risks (open_ports : list PortInfo.t)
    : option (list Assessment.t) :=
  assess_loop [] open_ports.

(** The loop of [calculate_security_score]. *)
Fixpoint total_risk_loop (total_risk : Z) (risk_results : list Assessment.t)
    : option Z :=
  match risk_results with
  | [] => Some total_risk
  | result :: rest =>
      level ← RISK_LEVELS !! Assessment.risk_level result;
      total_risk_loop (total_risk + LevelInfo.score level) rest
  end.

Definition calculate_security_score (risk_results : list Assessment.t)
    : option Z :=
  match risk_results with
  | [] => Some 100
  | _ =>
      total_risk ← total_risk_loop 0 risk_results;
      Some (Z.max 0 (100 - total_risk))
  end.

Definition get_security_rating (score : Z) : Rating.t :=
  if bool_decide (score >= 90) then
    Rating.mk "EXCELLENT"
      "Very secure configuration with minimal attack surface" "#28a745"
  else if bool_decide (score >= 70) then
    Rating.mk "GOOD" "Secure with minor improvements needed" "#20c997"
  else if bool_decide (score >= 50) then
    Rating.mk "FAIR" "Moderate security concerns require attention" "#ffc107"
  else if bool_decide (score >= 30) then
    Rating.mk "POOR" "Significant security vulnerabilities present" "#fd7e14"
  else
    Rating.mk "CRITICAL"
      "Severe security issues requiring immediate action" "#dc3545".

(** [sum(1 for r in risk_results if r['risk_level'] == level)] *)
Definition count_level (level : string) (risk_results : list Assessment.t)
    : Z :=
  len (filter (λ r, Assessment.risk_level r = level) risk_results).

Definition generate_executive_summary (risk_results : list Assessment.t)
    (security_score : Z) : Summary.t :=
  let high_count := count_level "HIGH" risk_results in
  let medium_count := count_level "MEDIUM" risk_results in
  let low_count := count_level "LOW" risk_results in
  let rating := get_security_rating security_score in
  let priority_actions : list string := [] in
  let priority_actions :=
    if bool_decide (high_count > 0) then
      priority_actions ++
        ["Address " +:+ pretty high_count +:+
           " HIGH risk service(s) immediately"]
    else priority_actions in
  let priority_actions :=
    if bool_decide (medium_count > 0) then
      priority_actions ++
        ["Review " +:+ pretty medium_count +:+ " MEDIUM risk service(s)"]
    else priority_actions in
  let priority_actions :=
    if bool_decide (priority_actions = []) then
      priority_actions ++
        ["Continue monitoring and maintain security posture"]
    else priority_actions in
  Summary.mk security_score
    (Rating.rating rating) (Rating.description rating) (Rating.color rating)
    (len risk_results) high_count medium_count low_count
    priority_actions.

(** *** Narratives of [simulate_attack_scenarios]

    Each narrative is an f-string; the ones that interpolate a listing of
    services or a count take it as an argument. *)

Definition remote_access_text (high_services : string) : string :=
  "CRITICAL: Remote Access Exploitation - Detected remote access services " +:+
  "(" +:+ high_services +:+ "). Attackers could exploit weak credentials or protocol vulnerabilities " +:+
  "to gain initial system access. Implement MFA, use VPN, and enforce strong password policies.".

Definition lateral_movement_text (high_services : string) : string :=
  "CRITICAL: Lateral Movement Vector - Detected file sharing/transfer protocols " +:+
  "(" +:+ high_services +:+ "). Successfully compromised systems could leverage these services " +:+
  "to move laterally across the network and exfiltrate sensitive data.".

Definition database_text (high_services : string) : string :=
  "CRITICAL: Database Compromise - Exposed database services (" +:+ high_services +:+ ") " +:+
  "are prime targets. Direct database access bypasses application security controls " +:+
  "and could lead to complete data breach. Implement network segmentation immediately.".

Definition telnet_text : string :=
  "CRITICAL: Credential Interception - Telnet transmits all data including credentials " +:+
  "in plaintext. Network-based attackers can intercept login credentials without any special tools. " +:+
  "This service must be disabled and replaced with SSH.".

Definition vnc_text : string :=
  "CRITICAL: Remote Desktop Hijacking - VNC services often have weak or default passwords. " +:+
  "Attackers can gain interactive desktop access for reconnaissance, data theft, or deploying malware. " +:+
  "Enforce encryption and multi-factor authentication.".

Definition web_text (medium_services : string) : string :=
  "HIGH: Web Service Exploitation - Detected web services (" +:+ medium_services +:+ "). " +:+
  "These are common attack vectors for credential harvesting, session hijacking, or application exploits. " +:+
  "Ensure all web services use HTTPS, apply security patches, and implement Web Application Firewalls.".

Definition email_text (medium_services : string) : string :=
  "HIGH: Email Service Abuse - Detected email services (" +:+ medium_services +:+ "). " +:+
  "Misconfigured mail servers can be exploited as open relays for spam, phishing campaigns, or credential attacks. " +:+
  "Enforce authentication, disable unnecessary protocols, and implement email filtering.".

Definition dns_text : string :=
  "HIGH: DNS Infrastructure Abuse - Exposed DNS services can be exploited for cache poisoning, " +:+
  "DNS amplification attacks, or unauthorized zone transfers. Implement access controls, rate limiting, and DNSSEC.".

Definition vigilance_text (low_services : string) : string :=
  "RECOMMENDED: Maintain Vigilance - Detected low-risk services (" +:+ low_services +:+ "). " +:+
  "While these services have proper security controls, continuous monitoring is essential. " +:+
  "Keep systems patched, monitor logs for suspicious activity, and maintain security awareness.".

Definition critical_summary_text (n : Z) : string :=
  "⚠️  ATTACK SURFACE SUMMARY: System has " +:+ pretty n +:+ " critical vulnerabilities. " +:+
  "This represents a HIGH risk of compromise. Prioritize immediate remediation of all HIGH risk services " +:+
  "to prevent unauthorized access and data breach.".

Definition moderate_summary_text (n : Z) : string :=
  "ATTACK SURFACE SUMMARY: System has " +:+ pretty n +:+ " moderate vulnerabilities. " +:+
  "These should be addressed within your regular patch and hardening cycle. Implement layered defenses.".

Definition minimal_summary_text : string :=
  "ATTACK SURFACE SUMMARY: System shows minimal attack surface with only low-risk services detected. " +:+
  "Maintain current security posture through regular monitoring and updates.".

(** [f"{r['service']}({r['port']})"] *)
Definition service_port (r : Assessment.t) : string :=
  Assessment.service r +:+ "(" +:+ pretty (Assessment.port r) +:+ ")".

(** [', '.join([f"{r['service']}({r['port']})" for r in ports])] *)
Definition listing (ports : list Assessment.t) : string :=
  String.concat ", " (service_port <$> ports).

(** [[r for r in risk_results if r['risk_level'] == level]] *)
Definition ports_of_level (level : string) (risk_results : list Assessment.t)
    : list Assessment.t :=
  filter (λ r, Assessment.risk_level r = level) risk_results.

(** [any(r['service'] in names for r in ports)] *)
Definition any_service_in (names : list string) (ports : list Assessment.t)
    : bool :=
  existsb (λ r, bool_decide (Assessment.service r ∈ names)) ports.

(** [any(r['service'] == name for r in ports)] *)
Definition any_service_eq (name : string) (ports : list Assessment.t)
    : bool :=
  existsb (λ r, bool_decide (Assessment.service r = name)) ports.

(** [if c: attack_scenarios.append(text)] *)
Definition append_if (c : bool) (text : string)
    (attack_scenarios : list string) : list string :=
  if c then attack_scenarios ++ [text] else attack_scenarios.

Definition simulate_attack_scenarios (risk_results : list Assessment.t)
    : list string :=
  let attack_scenarios : list string := [] in
  if bool_decide (risk_results = []) then
    ["No open ports detected. Current attack surface is minimal."]
  else
  let high_risk_ports := ports_of_level "HIGH" risk_results in
  let medium_risk_ports := ports_of_level "MEDIUM" risk_results in
  let low_risk_ports := ports_of_level "LOW" risk_results in
  let attack_scenarios :=
    if bool_decide (high_risk_ports ≠ []) then
      let high_services := listing high_risk_ports in
      let attack_scenarios :=
        append_if (any_service_in ["RDP"; "SSH"; "Telnet"] high_risk_ports)
          (remote_access_text high_services) attack_scenarios in
      let attack_scenarios :=
        append_if (any_service_in ["SMB"; "FTP"] high_risk_ports)
          (lateral_movement_text high_services) attack_scenarios in
      let attack_scenarios :=
        append_if (any_service_in ["MySQL"; "PostgreSQL"] high_risk_ports)
          (database_text high_services) attack_scenarios in
      let attack_scenarios :=
        append_if (any_service_eq "Telnet" high_risk_ports)
          telnet_text attack_scenarios in
      let attack_scenarios :=
        append_if (any_service_eq "VNC" high_risk_ports)
          vnc_text attack_scenarios in
      attack_scenarios
    else attack_scenarios in
  let attack_scenarios :=
    if bool_decide (medium_risk_ports ≠ []) then
      let medium_services := listing medium_risk_ports in
      let attack_scenarios :=
        append_if
          (any_service_in ["HTTP"; "HTTP-Proxy"; "HTTPS-Alt"] medium_risk_ports)
          (web_text medium_services) attack_scenarios in
      let attack_scenarios :=
        append_if (any_service_in ["SMTP"; "POP3"; "IMAP"] medium_risk_ports)
          (email_text medium_services) attack_scenarios in
      let attack_scenarios :=
        append_if (any_service_eq "DNS" medium_risk_ports)
          dns_text attack_scenarios in
      attack_scenarios
    else attack_scenarios in
  let attack_scenarios :=
    if bool_decide (low_risk_ports ≠ []) then
      let low_services := listing low_risk_ports in
      attack_scenarios ++ [vigilance_text low_services]
    else attack_scenarios in
  let attack_scenarios :=
    if bool_decide (len high_risk_ports > 0) then
      attack_scenarios ++ [critical_summary_text (len high_risk_ports)]
    else if bool_decide (len medium_risk_ports > 0) then
      attack_scenarios ++ [moderate_summary_text (len medium_risk_ports)]
    else
      attack_scenarios ++ [minimal_summary_text] in
  attack_scenarios.

End RiskEngine.

(** ** The port scanner *)

(** Exceptions that the socket library raises into [scan_port] and
    [get_service_name]. [gaierror] is a subclass of [socket_error]. *)
Inductive exn := gaierror | socket_error | other_exception.

(** Outcome of a call that returns a value or raises. *)
Inductive result (A : Type) :=
| Return (a : A)
| Raise (e : exn).
Arguments Return {A} a.
Arguments Raise {A} e.

Module PortScanner.

Definition COMMON_SERVICES : gmap Z string :=
  list_to_map [
    (20, "FTP-DATA"); (21, "FTP"); (22, "SSH"); (23, "Telnet");
    (25, "SMTP"); (53, "DNS"); (80, "HTTP"); (110, "POP3");
    (143, "IMAP"); (443, "HTTPS"); (445, "SMB"); (3306, "MySQL");
    (3389, "RDP"); (5432, "PostgreSQL"); (5900, "VNC");
    (8080, "HTTP-Proxy"); (8443, "HTTPS-Alt")
  ].

(** [str.upper] on the ASCII letters, which is all a service name of the
    services database holds. *)
Definition upper_ascii (c : ascii) : ascii :=
  let n := nat_of_ascii c in
  if bool_decide (97 ≤ n ≤ 122)%nat then ascii_of_nat (n - 32) else c.

Fixpoint upper (s : string) : string :=
  match s with
  | EmptyString => EmptyString
  | String c rest => String (upper_ascii c) (upper rest)
  end.

(** The state of one worker thread, between two of its accesses to the
    shared state. *)
Inductive wstate :=
| Waiting                (* at [self.queue.get()] *)
| Scanning (port : Z)    (* a port was taken; probe, append and
                            [task_done] are still to come *)
| Exited.                (* left the loop, or died on an exception *)

(** The program point of the thread that called [scan]. *)
Inductive phase :=
| Seeding (todo : list Z)   (* in the loop of [self.queue.put(port)] *)
| Joining                   (* at [self.queue.join()] *)
| Stopping (k : nat)        (* [k] sentinels still to put *)
| JoinThreads               (* in the loop of [thread.join()] *)
| Returned (res : list PortInfo.t).

(** The shared state of one call to [scan]: the program point of the
    caller, the queue ([None] is the sentinel) with its counter of
    unfinished tasks, the worker threads and [self.open_ports]. *)
Record state := mkState {
  main : phase;
  queue : list (option Z);
  unfinished_tasks : nat;
  workers : list wstate;
  open_ports : list PortInfo.t
}.

(** A scheduling decision: the caller moves, or worker [i] does. *)
Inductive action := Main | Worker (i : nat).

(** [self.open_ports.sort(key=lambda x: x['port'])]: a stable sort. *)
Fixpoint insert_by_port (x : PortInfo.t) (l : list PortInfo.t)
    : list PortInfo.t :=
  match l with
  | [] => [x]
  | y :: l' =>
      if bool_decide (PortInfo.port x ≤ PortInfo.port y) then x :: y :: l'
      else y :: insert_by_port x l'
  end.

Definition sort_by_port (l : list PortInfo.t) : list PortInfo.t :=
  foldr insert_by_port [] l.

Definition is_exited (w : wstate) : bool :=
  match w with Exited => true | _ => false end.

Section Scan.
(** The network: what creating the socket and calling [connect_ex]
    does for a target and a port. *)
Variable connect_ex : string → Z → result Z.
(** The services database of the host: [socket.getservbyport(port, 'tcp')]. *)
Variable getservbyport : Z → result string.

Definition scan_port (ip : string) (port : Z) : bool :=
  match connect_ex ip port with
  | Return result => bool_decide (result = 0)
  | Raise gaierror => false
  | Raise socket_error => false
  | Raise other_exception => false
  end.

Definition get_service_name (port : Z) : string :=
  match COMMON_SERVICES !! port with
  | Some name => name
  | None =>
      match getservbyport port with
      | Return service => upper service
      | Raise _ => "Unknown"
      end
  end.

Variable ip : string.

(** One move of the thread that runs [scan], after it has started the
    workers. [None]: the thread is blocked, or has returned. *)
Definition main_step (s : state) : option state :=
  match main s with
  | Seeding (port :: todo) =>
      Some (mkState (Seeding todo) (queue s ++ [Some port])
              (S (unfinished_tasks s)) (workers s) (open_ports s))
  | Seeding [] =>
      Some (mkState Joining (queue s) (unfinished_tasks s)
              (workers s) (open_ports s))
  | Joining =>
      if bool_decide (unfinished_tasks s = 0%nat) then
        Some (mkState (Stopping (length (workers s))) (queue s)
                (unfinished_tasks s) (workers s) (open_ports s))
      else None
  | Stopping (S k) =>
      Some (mkState (Stopping k) (queue s ++ [None])
              (S (unfinished_tasks s)) (workers s) (open_ports s))
  | Stopping O =>
      Some (mkState JoinThreads (queue s) (unfinished_tasks s)
              (workers s) (open_ports s))
  | JoinThreads =>
      if forallb is_exited (workers s) then
        Some (mkState (Returned (sort_by_port (open_ports s))) (queue s)
                (unfinished_tasks s) (workers s)
                (sort_by_port (open_ports s)))
      else None
  | Returned _ => None
  end.

(** One move of worker [i]: take an item from the queue, or probe the
    port it took, record it when open, and call [task_done] (which
    raises when no task is unfinished). [None]: the worker is blocked
    on the empty queue, has exited, or does not exist. *)
Definition worker_step (i : nat) (s : state) : option state :=
  match workers s !! i with
  | Some Waiting =>
      match queue s with
      | Some port :: rest =>
          Some (mkState (main s) rest (unfinished_tasks s)
                  (<[i := Scanning port]> (workers s)) (open_ports s))
      | None :: rest =>
          Some (mkState (main s) rest (unfinished_tasks s)
                  (<[i := Exited]> (workers s)) (open_ports s))
      | [] => None
      end
  | Some (Scanning port) =>
      let open_ports' :=
        if scan_port ip port then
          open_ports s ++ [PortInfo.mk port (get_service_name port)]
        else open_ports s in
      match unfinished_tasks s with
      | S n =>
          Some (mkState (main s) (queue s) n
                  (<[i := Waiting]> (workers s)) open_ports')
      | O =>
          Some (mkState (main s) (queue s) O
                  (<[i := Exited]> (workers s)) open_ports')
      end
  | Some Exited => None
  | None => None
  end.

Definition step (a : action) (s : state) : option state :=
  match a with
  | Main => main_step s
  | Worker i => worker_step i s
  end.

(** Runs a schedule; a decision that cannot move is skipped. *)
Fixpoint run (schedule : list action) (s : state) : state :=
  match schedule with
  | [] => s
  | a :: rest => run rest (default s (step a s))
  end.

(** The state of [scan] once [self.open_ports] is reset and the
    [num_threads] workers are started: every port of
    [range(start_port, end_port + 1)] is still to be put. The queue of the
    instance is empty and its counter of unfinished tasks is 0, as on a
    scanner that [__init__] has just built. *)
Definition init (num_threads : nat) (start_port end_port : Z) : state :=
  mkState (Seeding (seqZ start_port (end_port + 1 - start_port)))
    [] 0 (replicate num_threads Waiting) [].

(** What [scan] has returned in state [s], if it has. *)
Definition returned (s : state) : option (list PortInfo.t) :=
  match main s with
  | Returned res => Some res
  | _ => None
  end.

(** The transition relation and the states that a call can reach. *)
Definition steps_to (s s' : state) : Prop := ∃ a, step a s = Some s'.

Definition reachable (num_threads : nat) (start_port end_port : Z)
    (s : state) : Prop :=
  rtc steps_to (init num_threads start_port end_port) s.

End Scan.

End PortScanner.

(** ** Vocabulary of the specification *)

(** The three risk tiers of the data model. *)
Definition TIERS : list string := ["HIGH"; "MEDIUM"; "LOW"].

(** An assessment of the data model: its [risk_level] is a tier. *)
Definition well_formed (r : Assessment.t) : Prop :=
  Assessment.risk_level r ∈ TIERS.

(** The weight that the scorer gives to a tier. *)
Definition tier_weight (tier : string) : Z :=
  if bool_decide (tier = "HIGH") then 30
  else if bool_decide (tier = "MEDIUM") then 15
  else if bool_decide (tier = "LOW") then 5
  else 0.

(** The sum of the weights of the tiers of a list of assessments. *)
Definition total_weight (assessments : list Assessment.t) : Z :=
  foldr (λ r acc, tier_weight (Assessment.risk_level r) + acc) 0 assessments.

(** The default entry of the classifier. *)
Definition default_profile : Profile.t :=
  Profile.mk "MEDIUM"
    "Unidentified service requires investigation"
    "Investigate service identity. Close if unnecessary. Ensure proper security.".

(** The sample of the self-test of [risk_engine.py]. *)
Definition demo_ports : list PortInfo.t := [
  PortInfo.mk 22 "SSH"; PortInfo.mk 23 "Telnet"; PortInfo.mk 80 "HTTP";
  PortInfo.mk 443 "HTTPS"; PortInfo.mk 3389 "RDP" ].

(** The assessments of that sample. *)
Definition demo_assessments : list Assessment.t := [
  Assessment.mk 22 "SSH" "LOW" "#28a745"
    "Secure but requires proper configuration"
    "Disable password auth. Use key-based authentication. Change default port.";
  Assessment.mk 23 "Telnet" "HIGH" "#dc3545"
    "Unencrypted protocol transmitting credentials in plaintext"
    "Replace with SSH. Disable Telnet service immediately.";
  Assessment.mk 80 "HTTP" "MEDIUM" "#ffc107"
    "Unencrypted web traffic vulnerable to interception"
    "Implement HTTPS with valid SSL/TLS certificates. Redirect HTTP to HTTPS.";
  Assessment.mk 443 "HTTPS" "LOW" "#28a745"
    "Encrypted web service (validate certificate and configuration)"
    "Keep SSL/TLS updated. Use strong ciphers. Monitor certificate expiration.";
  Assessment.mk 3389 "RDP" "HIGH" "#dc3545"
    "Common target for brute-force attacks and exploitation"
    "Use VPN for access. Enable Network Level Authentication. Implement MFA." ].

(** What [assess_risks] promises of the assessment of one port record. *)
Definition assessment_of (port_info : PortInfo.t) (r : Assessment.t) : Prop :=
  Assessment.port r = PortInfo.port port_info ∧
  Assessment.service r = PortInfo.service port_info ∧
  ∃ profile,
    RiskEngine.get_risk_profile (PortInfo.service port_info) = Some profile ∧
    Assessment.risk_level r = Profile.risk profile ∧
    Assessment.reason r = Profile.reason profile ∧
    Assessment.mitigation r = Profile.mitigation profile.

(** *** The narrative generator, rule by rule *)

(** A rule of the narrative generator: the services that fire it, and its
    narrative as a function of a listing of [service(port)] pairs. *)
Record rule := mkRule { group : list string; narrative : string → string }.

Definition remote_access_rule : rule :=
  mkRule ["RDP"; "SSH"; "Telnet"] RiskEngine.remote_access_text.
Definition lateral_movement_rule : rule :=
  mkRule ["SMB"; "FTP"] RiskEngine.lateral_movement_text.
Definition database_rule : rule :=
  mkRule ["MySQL"; "PostgreSQL"] RiskEngine.database_text.
Definition telnet_rule : rule :=
  mkRule ["Telnet"] (λ _, RiskEngine.telnet_text).
Definition vnc_rule : rule :=
  mkRule ["VNC"] (λ _, RiskEngine.vnc_text).
Definition web_rule : rule :=
  mkRule ["HTTP"; "HTTP-Proxy"; "HTTPS-Alt"] RiskEngine.web_text.
Definition email_rule : rule :=
  mkRule ["SMTP"; "POP3"; "IMAP"] RiskEngine.email_text.
Definition dns_rule : rule :=
  mkRule ["DNS"] (λ _, RiskEngine.dns_text).

Definition HIGH_RULES : list rule :=
  [remote_access_rule; lateral_movement_rule; database_rule; telnet_rule; vnc_rule].
Definition MEDIUM_RULES : list rule := [web_rule; email_rule; dns_rule].

(** The assessments of a tier, in the order of the input. *)
Definition tier_of (level : string) (assessments : list Assessment.t)
    : list Assessment.t :=
  filter (λ r, Assessment.risk_level r = level) assessments.

(** A tier is present when some assessment has it. *)
Definition present (level : string) (assessments : list Assessment.t) : Prop :=
  Exists (λ r, Assessment.risk_level r = level) assessments.

(** A rule fires on a tier when a service of the tier is in its group. *)
Definition fires (ρ : rule) (tier : list Assessment.t) : Prop :=
  Exists (λ r, Assessment.service r ∈ group ρ) tier.


(** What a rule appends, its narrative being given the listing of the
    whole tier: one string when it fires, nothing otherwise. *)
Definition fire (tier : list Assessment.t) (ρ : rule) : list string :=
  if bool_decide (fires ρ tier)
  then [narrative ρ (RiskEngine.listing tier)] else [].

Definition fire_rules (rules : list rule) (tier : list Assessment.t)
    : list string :=
  rules ≫= fire tier.

(** The entry on LOW assessments. *)
Definition vigilance_entry (assessments : list Assessment.t) : list string :=
  if bool_decide (present "LOW" assessments)
  then [RiskEngine.vigilance_text (RiskEngine.listing (tier_of "LOW" assessments))]
  else [].

(** The overall summary, by precedence. *)
Definition overall_summary (assessments : list Assessment.t) : string :=
  if bool_decide (present "HIGH" assessments) then
    RiskEngine.critical_summary_text (len (tier_of "HIGH" assessments))
  else if bool_decide (present "MEDIUM" assessments) then
    RiskEngine.moderate_summary_text (len (tier_of "MEDIUM" assessments))
  else RiskEngine.minimal_summary_text.

(** The narratives in the order of the specification. *)
Definition Simulate (assessments : list Assessment.t) : list string :=
  fire_rules HIGH_RULES (tier_of "HIGH" assessments) ++
  fire_rules MEDIUM_RULES (tier_of "MEDIUM" assessments) ++
  vigilance_entry assessments ++
  [overall_summary assessments].

(** Every narrative that the generator can append for given listings of
    the three tiers and given counts, in the order of the specification. *)
Definition candidates (high medium low : string) (n_high n_medium : Z)
    : list string := [
  RiskEngine.remote_access_text high; RiskEngine.lateral_movement_text high;
  RiskEngine.database_text high; RiskEngine.telnet_text; RiskEngine.vnc_text;
  RiskEngine.web_text medium; RiskEngine.email_text medium;
  RiskEngine.dns_text;
  RiskEngine.vigilance_text low;
  RiskEngine.critical_summary_text n_high;
  RiskEngine.moderate_summary_text n_medium;
  RiskEngine.minimal_summary_text ].



(** *** The scanner, as a transition system *)

Module ScanModel.
Import PortScanner.

Section Model.
Variable connect_ex : string → Z → result Z.
Variable getservbyport : Z → result string.
Variable ip : string.

(** What a worker that has probed [port] leaves in [self.open_ports]. *)
Definition record (port : Z) (open_ports : list PortInfo.t) : list PortInfo.t :=
  if scan_port connect_ex ip port then
    open_ports ++ [PortInfo.mk port (get_service_name getservbyport port)]
  else open_ports.

(** The moves of [step], each with the shape of the states it relates. *)
Inductive transition : state → state → Prop :=
| t_put port todo q u ws op :
    transition (mkState (Seeding (port :: todo)) q u ws op)
               (mkState (Seeding todo) (q ++ [Some port]) (S u) ws op)
| t_seeded q u ws op :
    transition (mkState (Seeding []) q u ws op) (mkState Joining q u ws op)
| t_joined q ws op :
    transition (mkState Joining q 0 ws op)
               (mkState (Stopping (length ws)) q 0 ws op)
| t_stop k q u ws op :
    transition (mkState (Stopping (S k)) q u ws op)
               (mkState (Stopping k) (q ++ [None]) (S u) ws op)
| t_stopped q u ws op :
    transition (mkState (Stopping 0) q u ws op) (mkState JoinThreads q u ws op)
| t_return q u ws op :
    forallb is_exited ws = true →
    transition (mkState JoinThreads q u ws op)
               (mkState (Returned (sort_by_port op)) q u ws (sort_by_port op))
| t_take m port q u ws1 ws2 op :
    transition (mkState m (Some port :: q) u (ws1 ++ Waiting :: ws2) op)
               (mkState m q u (ws1 ++ Scanning port :: ws2) op)
| t_exit m q u ws1 ws2 op :
    transition (mkState m (None :: q) u (ws1 ++ Waiting :: ws2) op)
               (mkState m q u (ws1 ++ Exited :: ws2) op)
| t_done m port q u ws1 ws2 op :
    transition (mkState m q (S u) (ws1 ++ Scanning port :: ws2) op)
               (mkState m q u (ws1 ++ Waiting :: ws2) (record port op))
| t_crash m port q ws1 ws2 op :
    transition (mkState m q 0 (ws1 ++ Scanning port :: ws2) op)
               (mkState m q 0 (ws1 ++ Exited :: ws2) (record port op)).

End Model.

(** The ports that the caller has still to put in the queue. *)
Definition todo (s : state) : list Z :=
  match main s with Seeding ports => ports | _ => [] end.

(** The ports in the queue. *)
Definition queued (s : state) : list Z := omap id (queue s).

Definition scanning_port (w : wstate) : option Z :=
  match w with Scanning port => Some port | _ => None end.

(** The ports taken by a worker and not yet done. *)
Definition in_flight (s : state) : list Z := omap scanning_port (workers s).

(** The ports recorded as open. *)
Definition found (s : state) : list Z := PortInfo.port <$> open_ports s.

(** Every port that the call still holds somewhere. *)
Definition tracked (s : state) : list Z :=
  todo s ++ queued s ++ in_flight s ++ found s.

(** The number of workers that have left their loop. *)
Definition exited (s : state) : nat :=
  length (filter (λ w, is_exited w = true) (workers s)).

(** The sentinels that the caller has still to put in the queue. *)
Definition sentinels_to_put (s : state) : nat :=
  match main s with
  | Seeding _ | Joining => length (workers s)
  | Stopping k => k
  | JoinThreads | Returned _ => 0
  end.

Definition phase_rank (s : state) : nat :=
  match main s with
  | Seeding _ => 4 | Joining => 3 | Stopping _ => 2 | JoinThreads => 1
  | Returned _ => 0
  end.

(** A bound on the number of moves that a state has left. *)
Definition fuel (s : state) : nat :=
  phase_rank s + 3 * length (todo s) + 3 * sentinels_to_put s
  + 2 * length (queue s) + length (in_flight s).

(** A list of port records is sorted when its ports ascend. *)
Definition sorted_by_port (l : list PortInfo.t) : Prop :=
  Sorted Z.le (PortInfo.port <$> l).

(** What holds of the ports in every state of a scan of
    [start_port .. end_port]. *)
Definition ports_invariant (connect_ex : string → Z → result Z) (ip : string)
    (start_port end_port : Z) (s : state) : Prop :=
  tracked s ⊆+ seqZ start_port (end_port + 1 - start_port) ∧
  Forall (λ r, scan_port connect_ex ip (PortInfo.port r) = true) (open_ports s) ∧
  (∀ res, main s = Returned res →
     res = open_ports s ∧ sorted_by_port res ∧
     forallb is_exited (workers s) = true).

(** What holds of the queue and of the workers in every state of a scan:
    the counter of the queue, and what each program point of the caller
    implies. *)
Definition queue_invariant (s : state) : Prop :=
  unfinished_tasks s = (length (queue s) + length (in_flight s) + exited s)%nat ∧
  match main s with
  | Seeding _ | Joining => Forall is_Some (queue s) ∧ exited s = 0%nat
  | Stopping k =>
      Forall (λ item, item = None) (queue s) ∧ length (in_flight s) = 0%nat ∧
      (length (queue s) + k + exited s = length (workers s))%nat
  | JoinThreads =>
      Forall (λ item, item = None) (queue s) ∧ length (in_flight s) = 0%nat ∧
      (length (queue s) + exited s = length (workers s))%nat
  | Returned _ => forallb is_exited (workers s) = true
  end.

(** The claim on a target that does not resolve: the scan fails, that is,
    no state of the scan has returned a list. *)
Definition aborts_on_resolution_failure : Prop :=
  ∀ connect_ex getservbyport ip num_threads start_port end_port,
    (∀ port, connect_ex ip port = Raise gaierror) →
    ∀ s, reachable connect_ex getservbyport ip num_threads start_port end_port s →
         returned s = None.

(** A target that does not resolve, and a host without services
    database. *)
Definition unresolved_target (ip : string) (port : Z) : result Z := Raise gaierror.
Definition no_services (port : Z) : result string := Raise other_exception.

(** A network where the ports 22, 23 and 25 accept the connection and
    the others refuse it. *)
Definition demo_net (ip : string) (port : Z) : result Z :=
  if bool_decide (port ∈ [22; 23; 25]) then Return 0 else Return 111.

(** A schedule of two workers on the ports 22 to 24, in which the second
    worker takes port 23 and records it before the first records port
    22. *)
Definition demo_schedule : list action :=
  replicate 4 Main ++
  [Worker 0; Worker 1; Worker 1; Worker 0; Worker 1; Worker 1] ++
  replicate 4 Main ++ [Worker 0; Worker 1; Main].

(** A schedule of one worker on the ports 1 and 2. *)
Definition single_schedule : list action :=
  replicate 3 Main ++ replicate 4 (Worker 0) ++ replicate 3 Main ++
  [Worker 0; Main].

End ScanModel.

(** *** The scanner, beyond its first call *)

Module Rescan.
Import PortScanner.

(** The state of a further call to [scan] on an instance that an earlier
    call has left in state [s]: [self.open_ports] is reset and new workers
    are started, but [self.queue] is the queue of the instance, with the
    items and the counter of unfinished tasks that it has. *)
Definition rescan (s : state) (num_threads : nat) (start_port end_port : Z)
    : state :=
  mkState (Seeding (seqZ start_port (end_port + 1 - start_port)))
    (queue s) (unfinished_tasks s) (replicate num_threads Waiting) [].

(** What holds in every state of a call to [scan] that has found the
    counter of the queue at [backlog] more than its own tasks: the caller
    cannot leave [queue.join()]. *)
Definition blocked_invariant (backlog : nat) (s : state) : Prop :=
  match main s with Seeding _ | Joining => True | _ => False end ∧
  Forall is_Some (queue s) ∧
  ScanModel.exited s = 0%nat ∧
  unfinished_tasks s
    = (length (queue s) + length (ScanModel.in_flight s) + backlog)%nat.

(** What holds in every state of a scan without workers of a range that
    is not empty. *)
Definition workerless_invariant (s : state) : Prop :=
  workers s = [] ∧
  match main s with
  | Seeding todo => (0 < length todo + unfinished_tasks s)%nat
  | Joining => (0 < unfinished_tasks s)%nat
  | _ => False
  end.

End Rescan.

(** The number of moves that [run] makes on a schedule: the decisions
    that can move. *)
Fixpoint moves (connect_ex : string → Z → result Z)
    (getservbyport : Z → result string) (ip : string)
    (schedule : list PortScanner.action) (s : PortScanner.state) : nat :=
  match schedule with
  | [] => 0
  | a :: rest =>
      match PortScanner.step connect_ex getservbyport ip a s with
      | Some s' => S (moves connect_ex getservbyport ip rest s')
      | None => moves connect_ex getservbyport ip rest s
      end
  end.


(** What a scan records of an open port. *)
Definition port_record (getservbyport : Z → result string) (port : Z)
    : PortInfo.t :=
  PortInfo.mk port (PortScanner.get_service_name getservbyport port).

(** The open ports of a range, in ascending order. *)
Definition open_in_range (connect_ex : string → Z → result Z) (ip : string)
    (start_port end_port : Z) : list Z :=
  filter (λ port, PortScanner.scan_port connect_ex ip port = true)
    (seqZ start_port (end_port + 1 - start_port)).

(** What holds of the open ports in every state of a scan: those of the
    range are those still held and open, and those recorded; a record
    carries the name of its port. *)
Definition exact_invariant (connect_ex : string → Z → result Z)
    (getservbyport : Z → result string) (ip : string)
    (start_port end_port : Z) (s : PortScanner.state) : Prop :=
  open_in_range connect_ex ip start_port end_port
    ≡ₚ filter (λ port, PortScanner.scan_port connect_ex ip port = true)
         (ScanModel.todo s ++ ScanModel.queued s ++ ScanModel.in_flight s)
       ++ ScanModel.found s ∧
  Forall (λ r, r = port_record getservbyport (PortInfo.port r))
    (PortScanner.open_ports s).

(** What holds of the queue in a state in which the scan has returned. *)
Definition return_invariant (s : PortScanner.state) : Prop :=
  ∀ res, PortScanner.main s = PortScanner.Returned res →
    PortScanner.queue s = [] ∧
    PortScanner.unfinished_tasks s = length (PortScanner.workers s).

(** ** The scan route of the application *)

(** The part of the route [scan] of [app.py] that follows the parsing of
    the request: the checks on the range of ports, and the response built
    from the list that the scanner returns. *)
Module App.

(** The entry [scan_metadata] of the response. *)
Module Metadata.
Record t := mk {
  start_port : Z;
  end_port : Z;
  total_ports_scanned : Z;
  open_ports_count : Z
}.
End Metadata.

(** The entry [executive_summary] of the response. *)
Module Executive.
Record t := mk {
  rating : string;
  rating_description : string;
  rating_color : string;
  high_risk_count : Z;
  medium_risk_count : Z;
  low_risk_count : Z;
  priority_actions : list string
}.
End Executive.

(** The response of a scan that succeeds. *)
Module Response.
Record t := mk {
  ip : string;
  scan_metadata : Metadata.t;
  security_score : Z;
  executive_summary : Executive.t;
  attack_simulation : list string;
  scan_results : list Assessment.t
}.
End Response.

(** The checks on the bounds of the range, once [int] has converted
    them: the message of the first check that fails, with status 400. *)
Definition check_port_range (start_port end_port : Z) : option string :=
  if bool_decide (start_port < 1) then
    Some "start_port must be >= 1"
  else if bool_decide (end_port > 65535) then
    Some "end_port must be <= 65535"
  else if bool_decide (start_port >= end_port) then
    Some ("start_port (" +:+ pretty start_port +:+
          ") must be less than end_port (" +:+ pretty end_port +:+ ")")
  else None.

(** The response built from the list [open_ports] that the scanner has
    returned. [None]: an exception reaches the handler of the route, which
    answers with status 500. The handlers of the two inner [try] blocks
    are left out: [simulate_attack_scenarios] and
    [generate_executive_summary] raise on no list of assessments. *)
Definition scan_response (ip_address : string) (start_port end_port : Z)
    (open_ports : list PortInfo.t) : option Response.t :=
  risk_results ← RiskEngine.assess_risks open_ports;
  security_score ← RiskEngine.calculate_security_score risk_results;
  let attack_simulations := RiskEngine.simulate_attack_scenarios risk_results in
  let summary :=
    RiskEngine.generate_executive_summary risk_results security_score in
  let total_ports_in_range := end_port - start_port + 1 in
  Some (Response.mk ip_address
          (Metadata.mk start_port end_port total_ports_in_range (len open_ports))
          security_score
          (Executive.mk (Summary.rating summary)
             (Summary.rating_description summary)
             (Summary.rating_color summary)
             (Summary.high_risk_count summary)
             (Summary.medium_risk_count summary)
             (Summary.low_risk_count summary)
             (Summary.priority_actions summary))
          attack_simulations
          risk_results).

End App.

(** *** Further vocabulary on the risk engine *)

(** The ratings, from the worst to the best. *)
Definition rating_rank (rating : string) : nat :=
  if bool_decide (rating = "EXCELLENT") then 4
  else if bool_decide (rating = "GOOD") then 3
  else if bool_decide (rating = "FAIR") then 2
  else if bool_decide (rating = "POOR") then 1
  else 0.

(** A port record whose service has no entry of its own in the table of
    the risk engine. *)
Definition unmapped (port_info : PortInfo.t) : Prop :=
  RiskEngine.SERVICE_RISKS !! PortInfo.service port_info = None ∨
  PortInfo.service port_info = "Unknown".

(** * Properties of the risk engine *)


Section Classifier.
Import RiskEngine.

Lemma SERVICE_RISKS_Unknown : SERVICE_RISKS !! "Unknown" = Some default_profile.
Proof. vm_compute. reflexivity. Qed.

Lemma SERVICE_RISKS_tier service p :
  SERVICE_RISKS !! service = Some p → Profile.risk p ∈ TIERS.
Proof.
  intros Hp. apply elem_of_list_to_map_2 in Hp.
  unfold SERVICE_RISKS_items in Hp.
  repeat (apply elem_of_cons in Hp as [Hp|Hp];
          [ inversion Hp; subst; unfold TIERS; simpl; set_solver | ]).
  by apply elem_of_nil in Hp.
Qed.

Lemma RISK_LEVELS_tier tier :
  tier ∈ TIERS →
  ∃ c, RISK_LEVELS !! tier = Some (LevelInfo.mk (tier_weight tier) c).
Proof.
  unfold TIERS. intros Ht.
  repeat (apply elem_of_cons in Ht as [->|Ht];
          [ eexists; vm_compute; reflexivity | ]).
  by apply elem_of_nil in Ht.
Qed.

Lemma get_risk_profile_eq service :
  get_risk_profile service =
    Some (default default_profile (SERVICE_RISKS !! service)).
Proof. unfold get_risk_profile. by rewrite SERVICE_RISKS_Unknown. Qed.

(** Every service name has a profile, whose tier is one of the three. *)
Lemma get_risk_profile_tier service :
  ∃ p, get_risk_profile service = Some p ∧ Profile.risk p ∈ TIERS.
Proof.
  rewrite get_risk_profile_eq.
  destruct (SERVICE_RISKS !! service) as [p|] eqn:Hp; simpl.
  - exists p. split; [done|]. by eapply SERVICE_RISKS_tier.
  - exists default_profile. split; [done|].
    unfold default_profile, TIERS; simpl. set_solver.
Qed.

(** C4. The classifier is total: every service name has a profile (no
    [KeyError]), whose tier is HIGH, MEDIUM or LOW; a name that the table
    does not hold gets the default entry, with tier MEDIUM and the
    rationale to investigate, and so does the name [Unknown]. *)
Theorem get_risk_profile_total (service : string) :
  ∃ p, get_risk_profile service = Some p ∧
       Profile.risk p ∈ ["HIGH"; "MEDIUM"; "LOW"] ∧
       (SERVICE_RISKS !! service = None ∨ service = "Unknown" →
          p = default_profile ∧
          Profile.risk p = "MEDIUM" ∧
          Profile.reason p = "Unidentified service requires investigation").
Proof.
  rewrite get_risk_profile_eq.
  destruct (SERVICE_RISKS !! service) as [p|] eqn:Hp; simpl.
  - exists p. split; [done|]. split; [by eapply SERVICE_RISKS_tier|].
    intros [?| ->]; [done|].
    rewrite SERVICE_RISKS_Unknown in Hp. by inversion Hp.
  - exists default_profile. split; [done|]. split; [|done].
    unfold default_profile; simpl. set_solver.
Qed.

(** An unmapped name, classified. *)
Lemma get_risk_profile_total_witness :
  ∃ p, get_risk_profile "GOPHER" = Some p ∧ p = default_profile.
Proof.
  destruct (get_risk_profile_total "GOPHER") as (p & Hp & _ & Hd).
  exists p. split; [exact Hp|].
  apply Hd. left. vm_compute. reflexivity.
Defined.
End Classifier.


Section Scorer.
Import RiskEngine.

Lemma total_weight_nonneg L : 0 ≤ total_weight L.
Proof.
  induction L as [|r L IH]; simpl; [lia|].
  unfold tier_weight. repeat case_bool_decide; lia.
Qed.

Lemma total_weight_app L K : total_weight (L ++ K) = total_weight L + total_weight K.
Proof. induction L as [|r L IH]; simpl; lia. Qed.

(** The loop adds the weight of each tier to its accumulator. *)
Lemma total_risk_loop_weight L acc :
  Forall well_formed L →
  total_risk_loop acc L = Some (acc + total_weight L).
Proof.
  intros HL. revert acc.
  induction HL as [|r L Hr _ IH]; intros acc; simpl.
  - f_equal. lia.
  - destruct (RISK_LEVELS_tier _ Hr) as [c ->]. simpl.
    rewrite IH. f_equal. lia.
Qed.

Lemma calculate_security_score_weight L :
  Forall well_formed L →
  calculate_security_score L = Some (Z.max 0 (100 - total_weight L)).
Proof.
  intros HL. destruct L as [|r L]; [done|].
  unfold calculate_security_score.
  rewrite total_risk_loop_weight by done. simpl. f_equal.
Qed.

(** C1. On assessments whose tier is HIGH, MEDIUM or LOW the scorer
    returns a value (no [KeyError]): 100 on the empty list, and in every
    case the maximum of 0 and of 100 minus the sum of the weights 30, 15
    and 5 of the tiers; the value lies between 0 and 100. *)
Theorem calculate_security_score_spec (L : list Assessment.t) :
  Forall well_formed L →
  ∃ s, calculate_security_score L = Some s ∧
       (L = [] → s = 100) ∧
       s = Z.max 0 (100 - total_weight L) ∧
       0 ≤ s ≤ 100.
Proof.
  intros HL. eexists. split; [by apply calculate_security_score_weight|].
  pose proof (total_weight_nonneg L).
  split; [intros ->; done|]. split; [done|lia].
Qed.

(** The sample scores 15. *)
Lemma calculate_security_score_spec_witness :
  Forall well_formed demo_assessments ∧
  ∃ s, calculate_security_score demo_assessments = Some s ∧
       (demo_assessments = [] → s = 100) ∧
       s = Z.max 0 (100 - total_weight demo_assessments) ∧
       0 ≤ s ≤ 100.
Proof.
  assert (H : Forall well_formed demo_assessments)
    by (repeat constructor; unfold well_formed, TIERS; simpl; set_solver).
  split; [exact H|]. exact (calculate_security_score_spec demo_assessments H).
Defined.

(** C6. Adding an assessment at the end of a list never raises the score. *)
Theorem calculate_security_score_monotone (L : list Assessment.t) (a : Assessment.t) :
  Forall well_formed L → well_formed a →
  ∃ s s', calculate_security_score L = Some s ∧
          calculate_security_score (L ++ [a]) = Some s' ∧
          s' ≤ s.
Proof.
  intros HL Ha. do 2 eexists.
  split; [by apply calculate_security_score_weight|].
  split.
  - apply calculate_security_score_weight.
    apply Forall_app. split; [done|]. by constructor.
  - rewrite total_weight_app.
    pose proof (total_weight_nonneg [a]). lia.
Qed.

(** The sample, extended by its own first assessment. *)
Lemma calculate_security_score_monotone_witness :
  ∃ s s', calculate_security_score demo_assessments = Some s ∧
          calculate_security_score
            (demo_assessments ++ [Assessment.mk 8080 "HTTP-Proxy" "MEDIUM" "" "" ""])
            = Some s' ∧
          s' ≤ s.
Proof.
  apply calculate_security_score_monotone.
  - repeat constructor; unfold well_formed, TIERS; simpl; set_solver.
  - unfold well_formed, TIERS; simpl; set_solver.
Defined.

(** C2. The rating is a function of the score whose five values partition
    the integers at 90, 70, 50 and 30, each bound belonging to the upper
    bucket. *)
Theorem get_security_rating_buckets (score : Z) :
  let r := Rating.rating (get_security_rating score) in
  (r = "EXCELLENT" ↔ 90 ≤ score) ∧
  (r = "GOOD" ↔ 70 ≤ score ≤ 89) ∧
  (r = "FAIR" ↔ 50 ≤ score ≤ 69) ∧
  (r = "POOR" ↔ 30 ≤ score ≤ 49) ∧
  (r = "CRITICAL" ↔ score < 30) ∧
  r ∈ ["EXCELLENT"; "GOOD"; "FAIR"; "POOR"; "CRITICAL"] ∧
  Rating.rating <$> (get_security_rating <$> [90; 89; 70; 69; 50; 49; 30; 29])
    = ["EXCELLENT"; "GOOD"; "GOOD"; "FAIR"; "FAIR"; "POOR"; "POOR"; "CRITICAL"].
Proof.
  unfold get_security_rating. simpl.
  repeat case_bool_decide; simpl;
    repeat split; try lia; try discriminate; try done; set_solver.
Qed.

End Scorer.

Section SummaryBuilder.
Import RiskEngine.

Lemma count_level_nonneg level L : 0 ≤ count_level level L.
Proof. unfold count_level, len. lia. Qed.

(** A count is positive exactly when the tier occurs. *)
Lemma count_level_pos level L :
  0 < count_level level L ↔ Exists (λ r, Assessment.risk_level r = level) L.
Proof.
  unfold count_level, len. rewrite Exists_exists. split.
  - intros Hpos.
    destruct (filter _ L) as [|r K] eqn:HK; [simpl in Hpos; lia|].
    assert (Hr : r ∈ filter (λ r, Assessment.risk_level r = level) L)
      by (rewrite HK; left).
    apply list_elem_of_filter in Hr as [Hl Hin]. eauto.
  - intros (r & Hr & Hl).
    assert (Hin : r ∈ filter (λ r, Assessment.risk_level r = level) L)
      by (apply list_elem_of_filter; done).
    destruct (filter _ L); [by apply elem_of_nil in Hin|simpl; lia].
Qed.

(** C9. The priority actions are: an entry that names the count of HIGH
    assessments when there is one, then an entry that names the count of
    MEDIUM assessments when there is one, and the entry to maintain the
    posture when there is neither; so one or two entries in all. *)
Theorem generate_executive_summary_priority_actions
    (L : list Assessment.t) (score : Z) :
  let actions := Summary.priority_actions (generate_executive_summary L score) in
  let high := count_level "HIGH" L in
  let medium := count_level "MEDIUM" L in
  actions =
    (if bool_decide (0 < high)
     then ["Address " +:+ pretty high +:+ " HIGH risk service(s) immediately"]
     else []) ++
    (if bool_decide (0 < medium)
     then ["Review " +:+ pretty medium +:+ " MEDIUM risk service(s)"]
     else []) ++
    (if bool_decide (high = 0 ∧ medium = 0)
     then ["Continue monitoring and maintain security posture"]
     else []) ∧
  (0 < high ↔ Exists (λ r, Assessment.risk_level r = "HIGH") L) ∧
  (0 < medium ↔ Exists (λ r, Assessment.risk_level r = "MEDIUM") L) ∧
  (1 ≤ length actions ≤ 2)%nat.
Proof.
  intros actions high medium. subst actions.
  pose proof (count_level_nonneg "HIGH" L) as Hh.
  pose proof (count_level_nonneg "MEDIUM" L) as Hm.
  fold high in Hh. fold medium in Hm.
  split; [|split; [apply count_level_pos|split; [apply count_level_pos|]]].
  - unfold generate_executive_summary. cbv zeta. simpl Summary.priority_actions.
    fold high medium.
    repeat case_bool_decide; simpl; try done; try lia.
  - unfold generate_executive_summary. cbv zeta. simpl Summary.priority_actions.
    fold high medium.
    repeat case_bool_decide; simpl; try done; try lia.
Qed.

End SummaryBuilder.

Section Assess.
Import RiskEngine.

Lemma assess_one_total port_info :
  ∃ r, assess_one port_info = Some r ∧
       assessment_of port_info r ∧ well_formed r.
Proof.
  unfold assess_one.
  destruct (get_risk_profile_tier (PortInfo.service port_info))
    as (profile & Hprofile & Htier).
  rewrite Hprofile. simpl.
  destruct (RISK_LEVELS_tier (Profile.risk profile) Htier) as [c ->]. simpl.
  eexists. split; [done|]. split; [|exact Htier].
  unfold assessment_of; simpl. eauto 10.
Qed.

Lemma assess_loop_total open_ports risk_results :
  ∃ rs, assess_loop risk_results open_ports = Some (risk_results ++ rs) ∧
        Forall2 assessment_of open_ports rs ∧ Forall well_formed rs.
Proof.
  revert risk_results.
  induction open_ports as [|port_info rest IH]; intros risk_results;
    cbn [assess_loop].
  - exists []. by rewrite app_nil_r.
  - destruct (assess_one_total port_info) as (r & -> & Hr & Hwf).
    cbn [mbind option_bind].
    destruct (IH (risk_results ++ [r])) as (rs & -> & Hrs & Hwfs).
    exists (r :: rs). rewrite <- app_assoc. simpl.
    split; [done|]. split; by constructor.
Qed.

(** The three counts of a summary cover a list of well-formed
    assessments. *)
Lemma count_level_total L :
  Forall well_formed L →
  count_level "HIGH" L + count_level "MEDIUM" L + count_level "LOW" L = len L.
Proof.
  unfold count_level, len.
  induction 1 as [|r L Hr _ IH]; [done|].
  rewrite !filter_cons. unfold well_formed, TIERS in Hr.
  rewrite !elem_of_cons, elem_of_nil in Hr.
  destruct Hr as [Hr|[Hr|[Hr|[]]]]; rewrite Hr;
    repeat case_decide; try done; simpl length; lia.
Qed.

(** C10. [assess_risks] returns (no [KeyError]) a list as long as its
    input whose i-th element has the port and the service of the i-th
    input and the tier, reason and mitigation of the profile of that
    service; in a summary of that list the three counts add up to the
    number of open ports. *)
Theorem assess_risks_spec (open_ports : list PortInfo.t) :
  ∃ results,
    assess_risks open_ports = Some results ∧
    length results = length open_ports ∧
    (∀ i port_info, open_ports !! i = Some port_info →
       ∃ r, results !! i = Some r ∧ assessment_of port_info r) ∧
    (∀ score,
       let summary := generate_executive_summary results score in
       Summary.high_risk_count summary + Summary.medium_risk_count summary
         + Summary.low_risk_count summary
       = Summary.total_open_ports summary).
Proof.
  unfold assess_risks.
  destruct (assess_loop_total open_ports []) as (rs & Hrs & Hall & Hwf).
  exists rs. split; [exact Hrs|].
  split; [symmetry; by eapply Forall2_length|].
  split.
  - intros i port_info Hi.
    destruct (Forall2_lookup_l _ _ _ _ _ Hall Hi) as (r & Hr & Hof). eauto.
  - intros score. simpl. by apply count_level_total.
Qed.

(** The sample of the self-test, end to end: its assessments, its score
    and its rating. *)
Example assess_risks_demo :
  assess_risks demo_ports = Some demo_assessments ∧
  calculate_security_score demo_assessments = Some 15 ∧
  Rating.rating (get_security_rating 15) = "CRITICAL".
Proof. vm_compute. done. Qed.

End Assess.

Section Narratives.
Import RiskEngine.

Lemma append_if_app c text l :
  append_if c text l = l ++ (if c then [text] else []).
Proof. destruct c; simpl; [done|by rewrite app_nil_r]. Qed.

Lemma existsb_bool_decide {A} (P : A → Prop) `{∀ x, Decision (P x)} (l : list A) :
  existsb (λ x, bool_decide (P x)) l = bool_decide (Exists P l).
Proof.
  induction l as [|x l IH].
  - symmetry. apply bool_decide_eq_false_2. by inversion 1.
  - cbn [existsb]. rewrite IH. destruct (decide (P x)) as [Hx|Hx].
    + rewrite (bool_decide_eq_true_2 _ Hx). simpl.
      symmetry. apply bool_decide_eq_true_2. by left.
    + rewrite (bool_decide_eq_false_2 _ Hx). simpl.
      apply bool_decide_ext. split; [by right|].
      by inversion 1.
Qed.

Lemma any_service_in_fires ρ tier :
  any_service_in (group ρ) tier = bool_decide (fires ρ tier).
Proof. apply existsb_bool_decide. Qed.

Lemma any_service_eq_fires name f tier :
  any_service_eq name tier = bool_decide (fires (mkRule [name] f) tier).
Proof.
  unfold any_service_eq. rewrite existsb_bool_decide.
  apply bool_decide_ext. unfold fires. simpl.
  rewrite !Exists_exists. setoid_rewrite list_elem_of_singleton. done.
Qed.

Lemma tier_of_nonempty level L : tier_of level L ≠ [] ↔ present level L.
Proof.
  unfold tier_of, present. rewrite Exists_exists. split.
  - intros Hne. destruct (filter _ L) as [|r K] eqn:HK; [done|].
    assert (Hr : r ∈ filter (λ r, Assessment.risk_level r = level) L)
      by (rewrite HK; left).
    apply list_elem_of_filter in Hr as [Hl Hin]. eauto.
  - intros (r & Hr & Hl) Hnil.
    assert (Hin : r ∈ filter (λ r, Assessment.risk_level r = level) L)
      by (apply list_elem_of_filter; done).
    rewrite Hnil in Hin. by apply elem_of_nil in Hin.
Qed.

Lemma tier_of_len_pos level L : len (tier_of level L) > 0 ↔ present level L.
Proof.
  rewrite <- tier_of_nonempty. unfold len.
  destruct (tier_of level L); simpl; split; intros; try done; lia.
Qed.

Lemma fire_rules_nil rules : fire_rules rules [] = [].
Proof.
  unfold fire_rules. induction rules as [|ρ rules IH]; [done|].
  rewrite bind_cons, IH. unfold fire.
  rewrite bool_decide_eq_false_2; [done|]. by inversion 1.
Qed.

(** The block of the HIGH rules. *)
Lemma high_block tier :
  (if bool_decide (tier ≠ []) then
     append_if (any_service_eq "VNC" tier) vnc_text
       (append_if (any_service_eq "Telnet" tier) telnet_text
          (append_if (any_service_in ["MySQL"; "PostgreSQL"] tier)
             (database_text (listing tier))
             (append_if (any_service_in ["SMB"; "FTP"] tier)
                (lateral_movement_text (listing tier))
                (append_if (any_service_in ["RDP"; "SSH"; "Telnet"] tier)
                   (remote_access_text (listing tier)) []))))
   else [])
  = fire_rules HIGH_RULES tier.
Proof.
  destruct (decide (tier = [])) as [->|Hne].
  - by rewrite fire_rules_nil.
  - rewrite (bool_decide_eq_true_2 _ Hne).
    unfold HIGH_RULES, fire_rules.
    rewrite !bind_cons. change (@mbind list _ _ _ (fire tier) []) with (@nil string).
    unfold fire, telnet_rule, vnc_rule.
    rewrite <- !any_service_eq_fires, <- !any_service_in_fires.
    rewrite !append_if_app. cbn [group narrative remote_access_rule
      lateral_movement_rule database_rule].
    by rewrite app_nil_l, app_nil_r, <- !app_assoc.
Qed.

(** The block of the MEDIUM rules, after what was appended before. *)
Lemma medium_block tier before :
  (if bool_decide (tier ≠ []) then
     append_if (any_service_eq "DNS" tier) dns_text
       (append_if (any_service_in ["SMTP"; "POP3"; "IMAP"] tier)
          (email_text (listing tier))
          (append_if (any_service_in ["HTTP"; "HTTP-Proxy"; "HTTPS-Alt"] tier)
             (web_text (listing tier)) before))
   else before)
  = before ++ fire_rules MEDIUM_RULES tier.
Proof.
  destruct (decide (tier = [])) as [->|Hne].
  - rewrite fire_rules_nil, app_nil_r.
    by rewrite bool_decide_eq_false_2 by (intros Hnil; by apply Hnil).
  - rewrite (bool_decide_eq_true_2 _ Hne).
    unfold MEDIUM_RULES, fire_rules.
    rewrite !bind_cons. change (@mbind list _ _ _ (fire tier) []) with (@nil string).
    unfold fire, dns_rule.
    rewrite <- !any_service_eq_fires, <- !any_service_in_fires.
    rewrite !append_if_app. cbn [group narrative web_rule email_rule].
    by rewrite app_nil_r, <- !app_assoc.
Qed.

(** The code and the rule-by-rule description agree. *)
Lemma simulate_attack_scenarios_Simulate L :
  L ≠ [] → simulate_attack_scenarios L = Simulate L.
Proof.
  intros HL. unfold simulate_attack_scenarios.
  rewrite (bool_decide_eq_false_2 _ HL). cbv zeta.
  change ports_of_level with tier_of.
  rewrite high_block, medium_block.
  rewrite (bool_decide_ext _ _ (tier_of_len_pos "HIGH" L)).
  rewrite (bool_decide_ext _ _ (tier_of_len_pos "MEDIUM" L)).
  rewrite (bool_decide_ext _ _ (tier_of_nonempty "LOW" L)).
  unfold Simulate, vigilance_entry, overall_summary.
  destruct (bool_decide (present "HIGH" L)), (bool_decide (present "MEDIUM" L)),
    (bool_decide (present "LOW" L));
    rewrite ?app_nil_l, ?app_nil_r, <- ?app_assoc; reflexivity.
Qed.

Lemma candidates_NoDup high medium low n_high n_medium :
  NoDup (candidates high medium low n_high n_medium).
Proof.
  unfold candidates.
  repeat (apply NoDup_cons_2;
          [ rewrite ?not_elem_of_cons; repeat split;
            try (apply not_elem_of_nil);
            intros Heq; cbv [remote_access_text lateral_movement_text
              database_text telnet_text vnc_text web_text email_text dns_text
              vigilance_text critical_summary_text moderate_summary_text
              minimal_summary_text] in Heq; cbn [String.append] in Heq;
            discriminate Heq | ]).
  apply NoDup_nil_2.
Qed.

Lemma fire_sublist tier ρ :
  fire tier ρ `sublist_of` [narrative ρ (listing tier)].
Proof. unfold fire. case_bool_decide; [done|apply sublist_nil_l]. Qed.

(** The narratives returned are among the candidates, in their order. *)
Lemma Simulate_sublist L :
  Simulate L `sublist_of`
    candidates (listing (tier_of "HIGH" L)) (listing (tier_of "MEDIUM" L))
      (listing (tier_of "LOW" L))
      (len (tier_of "HIGH" L)) (len (tier_of "MEDIUM" L)).
Proof.
  unfold Simulate, candidates, fire_rules, HIGH_RULES, MEDIUM_RULES.
  rewrite !bind_cons.
  change (@mbind list _ _ _ (fire ?t) []) with (@nil string).
  rewrite !app_nil_r, <- !app_assoc.
  do 5 (apply (sublist_app _ [_] _ _); [apply fire_sublist|]).
  do 3 (apply (sublist_app _ [_] _ _); [apply fire_sublist|]).
  apply (sublist_app _ [_] _ _).
  { unfold vigilance_entry. case_bool_decide; [done|apply sublist_nil_l]. }
  unfold overall_summary. repeat case_bool_decide.
  - apply sublist_skip, sublist_nil_l.
  - apply sublist_cons, sublist_skip, sublist_nil_l.
  - do 2 apply sublist_cons. apply sublist_skip, sublist_nil_l.
Qed.

(** No narrative is returned twice. *)
Lemma simulate_attack_scenarios_NoDup L :
  L ≠ [] → NoDup (simulate_attack_scenarios L).
Proof.
  intros HL. rewrite simulate_attack_scenarios_Simulate by done.
  eapply sublist_NoDup; [apply candidates_NoDup|apply Simulate_sublist].
Qed.

Lemma fire_rules_fires rules tier ρ :
  ρ ∈ rules → fires ρ tier →
  narrative ρ (listing tier) ∈ fire_rules rules tier.
Proof.
  intros Hin Hfires. unfold fire_rules. apply list_elem_of_bind.
  exists ρ. split; [|done]. unfold fire.
  rewrite bool_decide_eq_true_2 by done. left.
Qed.











End Narratives.

(** * Properties of the port scanner *)

Section ScannerSort.
Import PortScanner ScanModel.

Lemma insert_by_port_Permutation x l : insert_by_port x l ≡ₚ x :: l.
Proof.
  induction l as [|y l IH]; simpl; [done|].
  case_bool_decide; [done|]. rewrite IH. apply Permutation_swap.
Qed.

Lemma sort_by_port_Permutation l : sort_by_port l ≡ₚ l.
Proof.
  induction l as [|x l IH]; simpl; [done|].
  by rewrite insert_by_port_Permutation, IH.
Qed.

Lemma insert_by_port_sorted x l :
  sorted_by_port l → sorted_by_port (insert_by_port x l).
Proof.
  unfold sorted_by_port.
  induction l as [|y l IH]; simpl; intros Hl.
  - repeat constructor.
  - case_bool_decide as Hxy; simpl.
    + constructor; [done|]. by constructor.
    + apply Sorted_inv in Hl as [Hl Hhd]. constructor; [by apply IH|].
      destruct l as [|z l]; simpl.
      * constructor. lia.
      * case_bool_decide; simpl; constructor; [lia|].
        by inversion Hhd.
Qed.

Lemma sort_by_port_sorted l : sorted_by_port (sort_by_port l).
Proof.
  induction l as [|x l IH]; simpl.
  - constructor.
  - by apply insert_by_port_sorted.
Qed.

End ScannerSort.

Section ScannerSteps.
Import PortScanner ScanModel.
Variable connect_ex : string → Z → result Z.
Variable getservbyport : Z → result string.
Variable ip : string.

Abbreviation step := (step connect_ex getservbyport ip).
Abbreviation steps_to := (steps_to connect_ex getservbyport ip).
Abbreviation transition := (transition connect_ex getservbyport ip).
Abbreviation record := (record connect_ex getservbyport ip).

(** An update by index, seen as the replacement of the middle of a list. *)
Lemma lookup_insert_split {A} (l : list A) (i : nat) (x y : A) :
  l !! i = Some x →
  ∃ l1 l2, l = l1 ++ x :: l2 ∧ <[i := y]> l = l1 ++ y :: l2 ∧ length l1 = i.
Proof.
  intros Hi. exists (take i l), (drop (S i) l).
  pose proof (lookup_lt_Some _ _ _ Hi) as Hlt.
  split; [by rewrite take_drop_middle|].
  split; [by apply insert_take_drop|].
  rewrite length_take. lia.
Qed.

Lemma insert_middle {A} (l1 l2 : list A) (x y : A) :
  <[length l1 := y]> (l1 ++ x :: l2) = l1 ++ y :: l2.
Proof.
  replace (length l1) with (length l1 + 0)%nat at 1 by lia.
  by rewrite insert_app_r.
Qed.

Lemma step_transition a s s' : step a s = Some s' → transition s s'.
Proof.
  destruct s as [m q u ws op]. destruct a as [|i]; simpl.
  - unfold main_step; simpl.
    destruct m as [[|port todo]| |[|k]| |res]; simpl; intros Hs;
      try (inversion Hs; subst; constructor; fail).
    + case_bool_decide as Hu; [|done]. simpl in Hu. subst u.
      inversion Hs; subst. constructor.
    + destruct (forallb is_exited ws) eqn:Hex; [|done].
      inversion Hs; subst. by constructor.
  - unfold worker_step; simpl.
    destruct (ws !! i) as [[|port|]|] eqn:Hi; try done.
    + destruct q as [|[port|] q]; [done| |]; intros Hs; inversion Hs; subst.
      * destruct (lookup_insert_split ws i Waiting (Scanning port) Hi)
          as (ws1 & ws2 & -> & -> & _). constructor.
      * destruct (lookup_insert_split ws i Waiting Exited Hi)
          as (ws1 & ws2 & -> & -> & _). constructor.
    + destruct u as [|u]; intros Hs; inversion Hs; subst.
      * destruct (lookup_insert_split ws i (Scanning port) Exited Hi)
          as (ws1 & ws2 & -> & -> & _). apply t_crash.
      * destruct (lookup_insert_split ws i (Scanning port) Waiting Hi)
          as (ws1 & ws2 & -> & -> & _). apply t_done.
Qed.

Lemma transition_step s s' : transition s s' → ∃ a, step a s = Some s'.
Proof.
  destruct 1 as [port todo q u ws op|q u ws op|q ws op|k q u ws op|q u ws op
                |q u ws op Hex|m port q u ws1 ws2 op|m q u ws1 ws2 op
                |m port q u ws1 ws2 op|m port q ws1 ws2 op].
  1-6: exists Main; unfold PortScanner.step, main_step; simpl; try done.
  { by rewrite Hex. }
  all: exists (Worker (length ws1)); unfold PortScanner.step, worker_step; simpl;
    rewrite list_lookup_middle by done; rewrite ?insert_middle; done.
Qed.

Lemma steps_to_transition s s' : steps_to s s' ↔ transition s s'.
Proof.
  split; [intros [a Ha]; by eapply step_transition|apply transition_step].
Qed.

End ScannerSteps.

Section ScannerInvariants.
Import PortScanner ScanModel.
Variable connect_ex : string → Z → result Z.
Variable getservbyport : Z → result string.
Variable ip : string.
Variables (num_threads : nat) (start_port end_port : Z).

Abbreviation transition := (transition connect_ex getservbyport ip).
Abbreviation record := (record connect_ex getservbyport ip).
Abbreviation reachable :=
  (reachable connect_ex getservbyport ip num_threads start_port end_port).
Abbreviation ports_invariant :=
  (ports_invariant connect_ex ip start_port end_port).

Lemma in_flight_waiting n : omap scanning_port (replicate n Waiting) = [].
Proof. induction n as [|n IH]; [done|]. simpl. exact IH. Qed.

Lemma exited_waiting n :
  filter (λ w, is_exited w = true) (replicate n Waiting) = [].
Proof.
  induction n as [|n IH]; [done|]. simpl.
  rewrite filter_cons. case_decide; [done|exact IH].
Qed.

(** A probe keeps the ports recorded, or adds the port probed. *)
Lemma record_found port op :
  PortInfo.port <$> record port op ⊆+ port :: (PortInfo.port <$> op).
Proof.
  unfold ScanModel.record. destruct (scan_port connect_ex ip port).
  - rewrite fmap_app. simpl. solve_submseteq.
  - solve_submseteq.
Qed.

Lemma record_open port op :
  Forall (λ r, scan_port connect_ex ip (PortInfo.port r) = true) op →
  Forall (λ r, scan_port connect_ex ip (PortInfo.port r) = true) (record port op).
Proof.
  intros Hop. unfold ScanModel.record.
  destruct (scan_port connect_ex ip port) eqn:Hp; [|done].
  apply Forall_app. split; [done|]. by repeat constructor.
Qed.

Lemma ports_invariant_init :
  ports_invariant (init num_threads start_port end_port).
Proof.
  unfold ScanModel.ports_invariant, tracked, todo, queued, in_flight, found, init.
  simpl. rewrite in_flight_waiting. simpl. rewrite app_nil_r.
  split; [done|]. split; [constructor|]. intros res Hres. discriminate Hres.
Qed.

Lemma tracked_record (A B C1 C2 F F' : list Z) port :
  F' ⊆+ port :: F →
  A ++ B ++ (C1 ++ C2) ++ F' ⊆+ A ++ B ++ (C1 ++ port :: C2) ++ F.
Proof.
  intros HF. etrans; [do 3 apply submseteq_skips_l; exact HF|].
  solve_submseteq.
Qed.

(** No worker moves once the caller has returned. *)
Lemma not_all_exited ws1 w ws2 :
  is_exited w = false → forallb is_exited (ws1 ++ w :: ws2) = true → False.
Proof.
  intros Hw Hall. rewrite forallb_app in Hall. simpl in Hall.
  rewrite Hw in Hall. by destruct (forallb is_exited ws1).
Qed.

Lemma ports_invariant_transition s s' :
  transition s s' → ports_invariant s → ports_invariant s'.
Proof.
  unfold ScanModel.ports_invariant, tracked, todo, queued, in_flight, found.
  destruct 1; simpl; intros (Htracked & Hopen & Hret);
    (split; [|split]); try done;
    try (intros res Hres; discriminate Hres);
    try (intros res ->; destruct (Hret _ eq_refl) as (_ & _ & Hex);
         by apply not_all_exited in Hex);
    try (etrans; [|exact Htracked];
         rewrite ?omap_app, ?fmap_app; simpl; solve_submseteq; fail).
  - rewrite sort_by_port_Permutation. exact Htracked.
  - by rewrite sort_by_port_Permutation.
  - intros res [= <-]. split; [done|]. split; [apply sort_by_port_sorted|done].
  - etrans; [|exact Htracked]. rewrite !omap_app. simpl.
    apply tracked_record, record_found.
  - by apply record_open.
  - etrans; [|exact Htracked]. rewrite !omap_app. simpl.
    apply tracked_record, record_found.
  - by apply record_open.
Qed.

(** The invariants hold in every state of a scan. *)
Lemma reachable_transition_ind (P : state → Prop) :
  P (init num_threads start_port end_port) →
  (∀ s s', transition s s' → P s → P s') →
  ∀ s, reachable s → P s.
Proof.
  intros Hinit Hstep. unfold PortScanner.reachable.
  apply rtc_ind_r; [done|].
  intros s s' _ [a Ha] IH. apply step_transition in Ha. eauto.
Qed.

Lemma reachable_ports_invariant s : reachable s → ports_invariant s.
Proof.
  apply reachable_transition_ind;
    [apply ports_invariant_init|apply ports_invariant_transition].
Qed.

Lemma run_reachable schedule s : reachable s → reachable (run connect_ex getservbyport ip schedule s).
Proof.
  revert s. induction schedule as [|a schedule IH]; intros s Hs; [done|].
  simpl. apply IH.
  destruct (step connect_ex getservbyport ip a s) as [s'|] eqn:Ha; [|done].
  simpl. eapply rtc_r; [exact Hs|]. by exists a.
Qed.

Lemma submseteq_NoDup {A} (l k : list A) : l ⊆+ k → NoDup k → NoDup l.
Proof.
  intros Hlk Hk. apply submseteq_Permutation in Hlk as [k' Hk'].
  rewrite Hk' in Hk. by apply NoDup_app in Hk as [Hl _].
Qed.

(** C3. Whatever the order in which the workers take and finish the
    ports, the list that a scan of [start_port .. end_port] returns has
    its ports within the range, has no port twice, and is sorted by
    ascending port. *)
Theorem scan_sorted_unique_in_range (s : state) (res : list PortInfo.t) :
  reachable s → returned s = Some res →
  Forall (λ r, start_port ≤ PortInfo.port r ≤ end_port) res ∧
  NoDup (PortInfo.port <$> res) ∧
  Sorted Z.le (PortInfo.port <$> res).
Proof.
  intros Hs Hres. unfold returned in Hres.
  destruct (main s) as [| | | |res'] eqn:Hmain; try discriminate Hres.
  injection Hres as ->.
  destruct (reachable_ports_invariant s Hs) as (Htracked & _ & Hret).
  destruct (Hret res Hmain) as (-> & Hsorted & _).
  assert (Hfound : found s ⊆+ seqZ start_port (end_port + 1 - start_port)).
  { etrans; [|exact Htracked]. unfold tracked.
    do 3 apply submseteq_inserts_l. done. }
  split; [|split].
  - apply Forall_forall. intros r Hr.
    assert (Hp : PortInfo.port r ∈ found s) by (by apply list_elem_of_fmap_2).
    eapply elem_of_submseteq in Hp; [|exact Hfound].
    apply elem_of_seqZ in Hp. lia.
  - eapply submseteq_NoDup; [exact Hfound|apply NoDup_seqZ].
  - exact Hsorted.
Qed.

End ScannerInvariants.

(** Two workers on the ports 22 to 24: port 23 is recorded before port
    22, and the list returned is sorted. *)
Lemma scan_sorted_unique_in_range_witness :
  let s := PortScanner.run ScanModel.demo_net ScanModel.no_services "10.0.0.7"
             ScanModel.demo_schedule (PortScanner.init 2 22 24) in
  PortScanner.returned s
    = Some [PortInfo.mk 22 "SSH"; PortInfo.mk 23 "Telnet"] ∧
  Forall (λ r, 22 ≤ PortInfo.port r ≤ 24)
    [PortInfo.mk 22 "SSH"; PortInfo.mk 23 "Telnet"] ∧
  NoDup (PortInfo.port <$> [PortInfo.mk 22 "SSH"; PortInfo.mk 23 "Telnet"]) ∧
  Sorted Z.le (PortInfo.port <$> [PortInfo.mk 22 "SSH"; PortInfo.mk 23 "Telnet"]).
Proof.
  intros s.
  assert (Hres : PortScanner.returned s
                 = Some [PortInfo.mk 22 "SSH"; PortInfo.mk 23 "Telnet"])
    by (vm_compute; reflexivity).
  split; [exact Hres|].
  apply (scan_sorted_unique_in_range ScanModel.demo_net ScanModel.no_services
           "10.0.0.7" 2 22 24 s).
  - apply run_reachable. apply rtc_refl.
  - exact Hres.
Defined.

Section ScannerProgress.
Import PortScanner ScanModel.
Variable connect_ex : string → Z → result Z.
Variable getservbyport : Z → result string.
Variable ip : string.
Variables (num_threads : nat) (start_port end_port : Z).

Abbreviation transition := (transition connect_ex getservbyport ip).
Abbreviation reachable :=
  (reachable connect_ex getservbyport ip num_threads start_port end_port).

Lemma length_in_flight_middle ws1 w ws2 :
  length (omap scanning_port (ws1 ++ w :: ws2)) =
    (length (omap scanning_port ws1)
     + (match w with Scanning _ => 1 | _ => 0 end)
     + length (omap scanning_port ws2))%nat.
Proof. rewrite omap_app, length_app. destruct w; csimpl; lia. Qed.

Lemma length_exited_middle ws1 w ws2 :
  length (filter (λ w, is_exited w = true) (ws1 ++ w :: ws2)) =
    (length (filter (λ w, is_exited w = true) ws1)
     + (if is_exited w then 1 else 0)
     + length (filter (λ w, is_exited w = true) ws2))%nat.
Proof.
  rewrite filter_app, length_app, filter_cons.
  destruct (is_exited w); case_decide; try done; simpl; lia.
Qed.

Lemma queue_invariant_init :
  queue_invariant (init num_threads start_port end_port).
Proof.
  unfold queue_invariant, in_flight, exited, init. simpl.
  rewrite in_flight_waiting, exited_waiting. simpl. by repeat split.
Qed.

Ltac queue_invariant_case :=
  repeat match goal with
  | H : _ ∧ _ |- _ => destruct H
  | H : Forall _ (_ :: _) |- _ => apply Forall_cons in H as [? ?]
  | H : is_Some None |- _ => by destruct H
  | H : Some _ = None |- _ => discriminate H
  | H : forallb is_exited (_ ++ _ :: _) = true |- _ =>
      by apply not_all_exited in H
  | |- _ ∧ _ => split
  | |- Forall _ (_ ++ _) => apply Forall_app
  | |- Forall _ [_] => apply Forall_singleton
  | |- is_Some (Some _) => by eexists
  end;
  try done; try lia.

Lemma queue_invariant_transition s s' :
  transition s s' → queue_invariant s → queue_invariant s'.
Proof.
  unfold queue_invariant, queued, in_flight, exited.
  destruct 1 as [port todo q u ws op|q u ws op|q ws op|k q u ws op|q u ws op
                |q u ws op Hex|m port q u ws1 ws2 op|m q u ws1 ws2 op
                |m port q u ws1 ws2 op|m port q ws1 ws2 op];
    simpl; rewrite ?length_in_flight_middle, ?length_exited_middle,
      ?length_app; simpl; intros [Hcount Hphase];
    try destruct m as [todo| |k| |res]; queue_invariant_case.
  destruct q; [constructor|simpl in *; lia].
Qed.

Lemma reachable_queue_invariant s : reachable s → queue_invariant s.
Proof.
  apply reachable_transition_ind;
    [apply queue_invariant_init|apply queue_invariant_transition].
Qed.

Lemma exists_not_exited ws :
  (length (filter (λ w, is_exited w = true) ws) < length ws)%nat →
  ∃ ws1 w ws2, ws = ws1 ++ w :: ws2 ∧ is_exited w = false.
Proof.
  induction ws as [|w ws IH]; simpl; [lia|].
  rewrite filter_cons. destruct (is_exited w) eqn:Hw.
  - case_decide; [|done]. simpl. intros Hlt.
    destruct IH as (ws1 & w' & ws2 & -> & Hw'); [lia|].
    by exists (w :: ws1), w', ws2.
  - intros _. by exists [], w, ws.
Qed.

Lemma exists_scanning ws :
  length (omap scanning_port ws) ≠ 0%nat →
  ∃ ws1 port ws2, ws = ws1 ++ Scanning port :: ws2.
Proof.
  induction ws as [|w ws IH]; [done|].
  destruct w as [|port|]; csimpl.
  - intros Hne. destruct (IH Hne) as (ws1 & port & ws2 & ->).
    by exists (Waiting :: ws1), port, ws2.
  - intros _. by exists [], port, ws.
  - intros Hne. destruct (IH Hne) as (ws1 & port & ws2 & ->).
    by exists (Exited :: ws1), port, ws2.
Qed.

Lemma all_exited ws :
  length (filter (λ w, is_exited w = true) ws) = length ws →
  forallb is_exited ws = true.
Proof.
  induction ws as [|w ws IH]; [done|]. simpl.
  rewrite filter_cons. pose proof (length_filter (λ w, is_exited w = true) ws).
  destruct (is_exited w); case_decide; try done; simpl; intros Hlen.
  - apply IH. lia.
  - lia.
Qed.

(** A scan with a worker that has not returned can move. *)
Lemma queue_invariant_progress s :
  queue_invariant s → workers s ≠ [] → returned s = None →
  ∃ s', transition s s'.
Proof.
  destruct s as [m q u ws op]. unfold queue_invariant, in_flight, exited, returned.
  simpl. intros [Hcount Hphase] Hws Hret.
  destruct m as [[|port todo]| |[|k]| |res]; try discriminate Hret;
    try (eexists; constructor; fail).
  - (* at [queue.join()] *)
    destruct u as [|u]; [eexists; constructor|].
    destruct Hphase as [Hq Hex].
    destruct (exists_not_exited ws) as (ws1 & w & ws2 & -> & Hw).
    { rewrite Hex. destruct ws; [done|simpl; lia]. }
    destruct w as [|port|]; [| |done].
    + rewrite length_in_flight_middle in Hcount.
      destruct (decide (length (omap scanning_port ws1)
                        + length (omap scanning_port ws2) = 0)%nat) as [Hz|Hnz].
      * destruct q as [|[port|] q]; [simpl in Hcount; lia| |];
          eexists; [apply t_take|apply t_exit].
      * destruct (exists_scanning (ws1 ++ Waiting :: ws2))
          as (ws1' & port & ws2' & Heq).
        { rewrite length_in_flight_middle. lia. }
        rewrite Heq. eexists. apply t_done.
    + eexists. apply t_done.
  - (* in the loop of [thread.join()] *)
    destruct Hphase as (Hq & Hfl & Hlen).
    destruct (forallb is_exited ws) eqn:Hall; [eexists; by constructor|].
    destruct (exists_not_exited ws) as (ws1 & w & ws2 & -> & Hw).
    { pose proof (length_filter (λ w, is_exited w = true) ws) as Hle.
      destruct (decide (length (filter (λ w, is_exited w = true) ws) = length ws))
        as [Heq|Hne]; [|lia].
      apply all_exited in Heq. congruence. }
    rewrite length_in_flight_middle in Hfl.
    rewrite length_exited_middle, length_app in Hlen. simpl in Hlen.
    rewrite Hw in Hlen.
    pose proof (length_filter (λ w, is_exited w = true) ws1).
    pose proof (length_filter (λ w, is_exited w = true) ws2).
    destruct w as [|port|]; [|lia|done].
    destruct q as [|[port|] q]; [simpl in Hlen; lia| |]; eexists;
      [apply t_take|apply t_exit].
Qed.

(** Every move uses up fuel. *)
Lemma transition_fuel s s' : transition s s' → (fuel s' < fuel s)%nat.
Proof.
  unfold fuel, phase_rank, sentinels_to_put, todo, in_flight.
  destruct 1 as [port todo q u ws op|q u ws op|q ws op|k q u ws op|q u ws op
                |q u ws op Hex|m port q u ws1 ws2 op|m q u ws1 ws2 op
                |m port q u ws1 ws2 op|m port q ws1 ws2 op];
    simpl; rewrite ?length_in_flight_middle, ?length_app; simpl;
    try destruct m; lia.
Qed.

Lemma transition_workers s s' :
  transition s s' → length (workers s') = length (workers s).
Proof. destruct 1; simpl; rewrite ?length_app; simpl; done. Qed.

Lemma reachable_workers s : reachable s → length (workers s) = num_threads.
Proof.
  revert s.
  refine (reachable_transition_ind _ _ _ _ _ _
            (λ s, length (workers s) = num_threads) _ _).
  - simpl. apply length_replicate.
  - intros s1 s2 Ht <-. by apply transition_workers.
Qed.

(** With a worker, the scan returns under some schedule from every state
    that it can reach. *)
Theorem scan_returns (s : state) :
  (1 ≤ num_threads)%nat → reachable s →
  ∃ s' res, rtc (steps_to connect_ex getservbyport ip) s s' ∧
            returned s' = Some res.
Proof.
  intros Hn. remember (fuel s) as n eqn:Hfuel. revert s Hfuel.
  induction n as [n IH] using lt_wf_ind. intros s -> Hs.
  destruct (returned s) as [res|] eqn:Hret.
  { exists s, res. split; [apply rtc_refl|done]. }
  destruct (queue_invariant_progress s) as [s1 Hs1]; [|  |done|].
  { by apply reachable_queue_invariant. }
  { pose proof (reachable_workers s Hs). destruct (workers s); simpl in *; [lia|done]. }
  assert (Hstep : steps_to connect_ex getservbyport ip s s1)
    by (by apply transition_step).
  destruct (IH (fuel s1) (transition_fuel _ _ Hs1) s1 eq_refl)
    as (s' & res & Hs' & Hres).
  { eapply rtc_r; [exact Hs|exact Hstep]. }
  exists s', res. split; [|done]. eapply rtc_l; [exact Hstep|exact Hs'].
Qed.

(** Every schedule is finite: a run has no more moves than its first
    state has fuel. *)
Theorem scan_bounded (n : nat) (s s' : state) :
  nsteps (steps_to connect_ex getservbyport ip) n s s' → (n ≤ fuel s)%nat.
Proof.
  induction 1 as [|n s1 s2 s3 [a Ha] _ IH]; [lia|].
  apply step_transition, transition_fuel in Ha. lia.
Qed.

End ScannerProgress.

Section ScannerFailure.
Import PortScanner ScanModel.
Variable connect_ex : string → Z → result Z.
Variable getservbyport : Z → result string.
Variable ip : string.
Variables (num_threads : nat) (start_port end_port : Z).

Abbreviation reachable :=
  (reachable connect_ex getservbyport ip num_threads start_port end_port).

(** C5, amended. When the target does not resolve, every probe catches
    the error and reports its port closed; the scan is not aborted: with
    a worker it returns, and the list that it returns is empty. *)
Theorem scan_unresolved_returns_empty :
  (∀ port, connect_ex ip port = Raise gaierror) →
  (1 ≤ num_threads)%nat →
  (∀ port, scan_port connect_ex ip port = false) ∧
  (∀ s res, reachable s → returned s = Some res → res = []) ∧
  (∃ s, reachable s ∧ returned s = Some []).
Proof.
  intros Hgai Hn.
  assert (Hclosed : ∀ port, scan_port connect_ex ip port = false)
    by (intros port; unfold scan_port; by rewrite Hgai).
  assert (Hempty : ∀ s res, reachable s → returned s = Some res → res = []).
  { intros s res Hs Hres. unfold returned in Hres.
    destruct (main s) as [| | | |res'] eqn:Hmain; try discriminate Hres.
    injection Hres as ->.
    destruct (reachable_ports_invariant _ _ _ _ _ _ s Hs) as (_ & Hopen & Hret).
    destruct (Hret res Hmain) as (-> & _ & _).
    destruct (open_ports s) as [|r op]; [done|].
    apply Forall_cons in Hopen as [Hr _]. rewrite Hclosed in Hr. discriminate Hr. }
  split; [exact Hclosed|]. split; [exact Hempty|].
  destruct (scan_returns connect_ex getservbyport ip num_threads start_port
              end_port (init num_threads start_port end_port) Hn (rtc_refl _ _))
    as (s & res & Hs & Hres).
  exists s. split; [exact Hs|]. by rewrite Hres, (Hempty s res Hs Hres).
Qed.

End ScannerFailure.

(** C5, as stated, fails: on a target that does not resolve, one worker
    scanning the ports 1 and 2 reaches a state in which the scan has
    returned, and the list returned is empty. *)
Lemma scan_unresolved_counterexample : ¬ ScanModel.aborts_on_resolution_failure.
Proof.
  intros Hclaim.
  specialize (Hclaim ScanModel.unresolved_target ScanModel.no_services
                "no.such.host" 1%nat 1 2 (λ _, eq_refl)
                (PortScanner.run ScanModel.unresolved_target ScanModel.no_services
                   "no.such.host" ScanModel.single_schedule
                   (PortScanner.init 1 1 2))).
  assert (Hres : PortScanner.returned
            (PortScanner.run ScanModel.unresolved_target ScanModel.no_services
               "no.such.host" ScanModel.single_schedule (PortScanner.init 1 1 2))
          = Some []) by (vm_compute; reflexivity).
  rewrite Hclaim in Hres; [discriminate Hres|].
  apply run_reachable. apply rtc_refl.
Qed.

(** One worker, the ports 1 and 2, a target that does not resolve. *)
Lemma scan_unresolved_returns_empty_witness :
  (∀ port, PortScanner.scan_port ScanModel.unresolved_target "no.such.host" port
           = false) ∧
  (∀ s res,
     PortScanner.reachable ScanModel.unresolved_target ScanModel.no_services
       "no.such.host" 1 1 2 s →
     PortScanner.returned s = Some res → res = []) ∧
  (∃ s, PortScanner.reachable ScanModel.unresolved_target ScanModel.no_services
          "no.such.host" 1 1 2 s ∧
        PortScanner.returned s = Some []).
Proof.
  apply scan_unresolved_returns_empty.
  - intros port. reflexivity.
  - lia.
Defined.

(** * Further properties of the port scanner *)

Section ScannerExact.
Import PortScanner ScanModel.
Variable connect_ex : string → Z → result Z.
Variable getservbyport : Z → result string.
Variable ip : string.
Variables (num_threads : nat) (start_port end_port : Z).

Abbreviation transition := (transition connect_ex getservbyport ip).
Abbreviation reachable :=
  (reachable connect_ex getservbyport ip num_threads start_port end_port).
Abbreviation is_open := (λ port : Z, scan_port connect_ex ip port = true).
Abbreviation exact :=
  (exact_invariant connect_ex getservbyport ip start_port end_port).

Lemma exact_invariant_init :
  exact (init num_threads start_port end_port).
Proof.
  unfold exact_invariant, open_in_range, todo, queued, in_flight, found, init.
  simpl. rewrite in_flight_waiting. simpl. rewrite !app_nil_r.
  split; [done|constructor].
Qed.

Lemma record_filter port op :
  filter is_open [port] ++ (PortInfo.port <$> op)
  ≡ₚ PortInfo.port <$> record connect_ex getservbyport ip port op.
Proof.
  unfold record. rewrite filter_cons, filter_nil.
  destruct (scan_port connect_ex ip port); case_decide; try done.
  rewrite fmap_app. simpl. solve_Permutation.
Qed.

Lemma record_names port op :
  Forall (λ r, r = port_record getservbyport (PortInfo.port r)) op →
  Forall (λ r, r = port_record getservbyport (PortInfo.port r))
    (record connect_ex getservbyport ip port op).
Proof.
  intros Hop. unfold record. destruct (scan_port connect_ex ip port); [|done].
  apply Forall_app. split; [done|]. by repeat constructor.
Qed.

Lemma exact_move (A B F : list Z) :
  A ≡ₚ B → filter is_open A ++ F ≡ₚ filter is_open B ++ F.
Proof. by intros ->. Qed.

Lemma exact_done (A B F F' : list Z) port :
  A ≡ₚ B ++ [port] → filter is_open [port] ++ F ≡ₚ F' →
  filter is_open A ++ F ≡ₚ filter is_open B ++ F'.
Proof. intros -> <-. by rewrite filter_app, <- app_assoc. Qed.

Lemma exact_invariant_transition s s' : transition s s' → exact s → exact s'.
Proof.
  unfold exact_invariant, todo, queued, in_flight, found.
  destruct 1 as [port todo q u ws op|q u ws op|q ws op|k q u ws op|q u ws op
                |q u ws op Hex|m port q u ws1 ws2 op|m q u ws1 ws2 op
                |m port q u ws1 ws2 op|m port q ws1 ws2 op];
    simpl; intros [Hperm Hnames]; (split; [rewrite Hperm|]); try done;
    try (by apply record_names);
    try (eapply exact_done; [|apply record_filter];
         rewrite !omap_app; csimpl; solve_Permutation);
    try (apply exact_move; rewrite ?omap_app; csimpl; solve_Permutation).
  - by rewrite sort_by_port_Permutation.
  - by rewrite sort_by_port_Permutation.
Qed.

Lemma reachable_exact_invariant s : reachable s → exact s.
Proof.
  revert s.
  refine (reachable_transition_ind _ _ _ _ _ _ (λ s, exact s) _ _).
  - apply exact_invariant_init.
  - apply exact_invariant_transition.
Qed.

(** When the scan returns, the queue is empty and its counter is the
    number of workers. *)
Lemma reachable_return_invariant s : reachable s → return_invariant s.
Proof.
  intros Hs. unfold PortScanner.reachable in Hs. unfold return_invariant.
  apply rtc_inv_r in Hs as [<-|(s1 & Hs1 & [a Ha])]; [discriminate|].
  rename s into s2.
  assert (Hq : queue_invariant s1)
    by (by eapply reachable_queue_invariant).
  assert (Hp := reachable_ports_invariant _ _ _ _ _ _ _ Hs1). clear Hs1.
  apply step_transition in Ha.
  destruct Ha as [port todo q u ws op|q u ws op|q ws op|k q u ws op|q u ws op
                 |q u ws op Hex|m port q u ws1 ws2 op|m q u ws1 ws2 op
                 |m port q u ws1 ws2 op|m port q ws1 ws2 op];
    simpl; intros res Hres; try discriminate Hres;
    try (subst m; destruct Hp as (_ & _ & Hret);
         destruct (Hret _ eq_refl) as (_ & _ & Hall);
         by apply not_all_exited in Hall).
  destruct Hq as [Hcount (Hnone & Hfl & Hlen)]. simpl in *.
  unfold in_flight, exited in *. simpl in *.
  assert (Hexited : length (filter (λ w, is_exited w = true) ws) = length ws).
  { clear -Hex. induction ws as [|w ws IH]; [done|]. simpl in Hex.
    rewrite filter_cons. destruct (is_exited w); [|done].
    case_decide; [|done]. simpl. f_equal. by apply IH. }
  split; [destruct q; [done|simpl in Hlen; lia]|lia].
Qed.

Lemma seqZ_StronglySorted m n : StronglySorted Z.le (seqZ m n).
Proof.
  remember (Z.to_nat n) as k eqn:Hk. revert m n Hk.
  induction k as [|k IH]; intros m n Hk.
  - rewrite seqZ_nil by lia. constructor.
  - rewrite seqZ_cons by lia. constructor; [apply IH; lia|].
    apply Forall_forall. intros x Hx. apply elem_of_seqZ in Hx. lia.
Qed.

Lemma filter_StronglySorted (P : Z → Prop) `{∀ x, Decision (P x)} l :
  StronglySorted Z.le l → StronglySorted Z.le (filter P l).
Proof.
  induction 1 as [|x l Hl IH Hx]; [constructor|].
  rewrite filter_cons. case_decide; [|done].
  constructor; [done|]. apply Forall_forall. intros y Hy.
  apply list_elem_of_filter in Hy as [_ Hy].
  by eapply Forall_forall in Hx.
Qed.

Lemma open_in_range_sorted :
  Sorted Z.le (open_in_range connect_ex ip start_port end_port).
Proof.
  apply StronglySorted_Sorted, filter_StronglySorted, seqZ_StronglySorted.
Qed.

Lemma all_exited_in_flight ws :
  forallb is_exited ws = true → omap scanning_port ws = [].
Proof.
  induction ws as [|w ws IH]; [done|]. simpl.
  destruct w; simpl; by auto.
Qed.

Lemma scan_port_true port :
  scan_port connect_ex ip port = true ↔ connect_ex ip port = Return 0.
Proof.
  unfold scan_port. destruct (connect_ex ip port) as [code|[]]; try done.
  case_bool_decide; split; try done; [by intros _; subst|].
  intros [= ->]. done.
Qed.

(** The list that a scan returns is the list of the open ports of the
    range in ascending order, each with its service name, whatever the
    schedule: a port is returned exactly when it is in the range and the
    connection to it returned 0. *)
Theorem scan_returns_open_ports (s : state) (res : list PortInfo.t) :
  reachable s → returned s = Some res →
  res = port_record getservbyport
          <$> open_in_range connect_ex ip start_port end_port ∧
  (∀ port, port ∈ (PortInfo.port <$> res) ↔
           start_port ≤ port ≤ end_port ∧ connect_ex ip port = Return 0).
Proof.
  intros Hs Hres. unfold returned in Hres.
  destruct (main s) as [| | | |res'] eqn:Hmain; try discriminate Hres.
  injection Hres as ->.
  destruct (reachable_exact_invariant s Hs) as [Hperm Hnames].
  destruct (reachable_ports_invariant _ _ _ _ _ _ s Hs) as (_ & _ & Hret).
  destruct (Hret res Hmain) as (Hop & Hsorted & Hall).
  destruct (reachable_return_invariant s Hs res Hmain) as [Hq _].
  unfold todo, queued, in_flight, found in Hperm.
  rewrite Hmain, Hq, (all_exited_in_flight _ Hall), <- Hop in Hperm.
  simpl in Hperm.
  assert (Hports : PortInfo.port <$> res
                   = open_in_range connect_ex ip start_port end_port).
  { apply (Sorted_unique Z.le); [exact Hsorted|apply open_in_range_sorted|].
    by symmetry. }
  assert (Hres : res = port_record getservbyport <$> (PortInfo.port <$> res)).
  { rewrite <- Hop in Hnames. clear -Hnames.
    induction Hnames as [|r l Hr _ IH]; [done|].
    rewrite !fmap_cons. by f_equal. }
  split; [by rewrite <- Hports|].
  intros port. rewrite Hports. unfold open_in_range.
  rewrite list_elem_of_filter, elem_of_seqZ, scan_port_true. split.
  - intros [? ?]. split; [lia|done].
  - intros [? ?]. split; [done|lia].
Qed.

(** When a scan returns, every worker has exited, the queue is empty, and
    its counter of unfinished tasks is not 0 but the number of workers: no
    worker calls [task_done] for the sentinel that it takes. *)
Theorem scan_state_at_return (s : state) (res : list PortInfo.t) :
  reachable s → returned s = Some res →
  open_ports s = res ∧
  queue s = [] ∧
  forallb is_exited (workers s) = true ∧
  length (workers s) = num_threads ∧
  unfinished_tasks s = num_threads.
Proof.
  intros Hs Hres. unfold returned in Hres.
  destruct (main s) as [| | | |res'] eqn:Hmain; try discriminate Hres.
  injection Hres as ->.
  destruct (reachable_ports_invariant _ _ _ _ _ _ s Hs) as (_ & _ & Hret).
  destruct (Hret res Hmain) as (Hop & _ & Hall).
  destruct (reachable_return_invariant s Hs res Hmain) as [Hq Hu].
  pose proof (reachable_workers _ _ _ _ _ _ s Hs) as Hws.
  repeat split; try done. by rewrite Hu.
Qed.

End ScannerExact.

(** The schedule of two workers on the ports 22 to 24. *)
Lemma scan_returns_open_ports_witness :
  [PortInfo.mk 22 "SSH"; PortInfo.mk 23 "Telnet"]
    = port_record ScanModel.no_services
        <$> open_in_range ScanModel.demo_net "10.0.0.7" 22 24 ∧
  (∀ port,
     port ∈ (PortInfo.port <$> [PortInfo.mk 22 "SSH"; PortInfo.mk 23 "Telnet"]) ↔
     22 ≤ port ≤ 24 ∧ ScanModel.demo_net "10.0.0.7" port = Return 0).
Proof.
  apply (scan_returns_open_ports ScanModel.demo_net ScanModel.no_services
           "10.0.0.7" 2 22 24
           (PortScanner.run ScanModel.demo_net ScanModel.no_services "10.0.0.7"
              ScanModel.demo_schedule (PortScanner.init 2 22 24))).
  - apply run_reachable, rtc_refl.
  - vm_compute. reflexivity.
Defined.

Lemma scan_state_at_return_witness :
  let s := PortScanner.run ScanModel.demo_net ScanModel.no_services "10.0.0.7"
             ScanModel.demo_schedule (PortScanner.init 2 22 24) in
  PortScanner.open_ports s = [PortInfo.mk 22 "SSH"; PortInfo.mk 23 "Telnet"] ∧
  PortScanner.queue s = [] ∧
  forallb PortScanner.is_exited (PortScanner.workers s) = true ∧
  length (PortScanner.workers s) = 2%nat ∧
  PortScanner.unfinished_tasks s = 2%nat.
Proof.
  intros s.
  apply (scan_state_at_return ScanModel.demo_net ScanModel.no_services
           "10.0.0.7" 2 22 24 s).
  - apply run_reachable, rtc_refl.
  - vm_compute. reflexivity.
Defined.

Section ScannerBlocked.
Import PortScanner ScanModel Rescan.
Variable connect_ex : string → Z → result Z.
Variable getservbyport : Z → result string.
Variable ip : string.

Abbreviation transition := (transition connect_ex getservbyport ip).
Abbreviation steps_to := (steps_to connect_ex getservbyport ip).

Lemma blocked_invariant_transition backlog s s' :
  (1 ≤ backlog)%nat →
  transition s s' → blocked_invariant backlog s → blocked_invariant backlog s'.
Proof.
  unfold blocked_invariant, in_flight, exited. intros Hb.
  destruct 1 as [port todo q u ws op|q u ws op|q ws op|k q u ws op|q u ws op
                |q u ws op Hex|m port q u ws1 ws2 op|m q u ws1 ws2 op
                |m port q u ws1 ws2 op|m port q ws1 ws2 op];
    simpl; rewrite ?length_in_flight_middle, ?length_exited_middle,
      ?length_app; simpl; intros (Hmain & Hq & Hex' & Hcount);
    try done; try lia.
  - repeat split; try done; [|lia].
    apply Forall_app. split; [done|]. by repeat constructor.
  - apply Forall_cons in Hq as [_ Hq]. repeat split; try done; lia.
  - apply Forall_cons in Hq as [[? Hnone] _]. discriminate Hnone.
  - repeat split; try done; lia.
Qed.

Lemma blocked_invariant_returned backlog s :
  blocked_invariant backlog s → returned s = None.
Proof.
  unfold blocked_invariant, returned. intros [Hmain _].
  by destruct (main s).
Qed.

Lemma blocked_invariant_rtc backlog s s' :
  (1 ≤ backlog)%nat →
  rtc steps_to s s' → blocked_invariant backlog s → blocked_invariant backlog s'.
Proof.
  intros Hb. induction 1 as [|s1 s2 s3 [a Ha] _ IH]; [done|].
  intros Hs1. apply IH. eapply blocked_invariant_transition; [done| |done].
  by eapply step_transition.
Qed.

(** A scanner serves one scan: once a call to [scan] with at least one
    worker has returned, no further call to [scan] on the same instance
    returns, whatever its range, its number of workers and the schedule
    (the caller stays in [queue.join()], for the counter of unfinished
    tasks never comes back to 0). *)
Theorem second_scan_never_returns
    (num_threads : nat) (start_port end_port : Z) (s : state)
    (res : list PortInfo.t)
    (num_threads' : nat) (start_port' end_port' : Z) (s' : state) :
  (1 ≤ num_threads)%nat →
  reachable connect_ex getservbyport ip num_threads start_port end_port s →
  returned s = Some res →
  rtc steps_to (rescan s num_threads' start_port' end_port') s' →
  returned s' = None.
Proof.
  intros Hn Hs Hres Hs'.
  assert (Hmain : main s = Returned res).
  { unfold returned in Hres. destruct (main s); try discriminate Hres.
    by injection Hres as ->. }
  destruct (reachable_return_invariant _ _ _ _ _ _ s Hs res Hmain) as [Hq Hu].
  rewrite (reachable_workers _ _ _ _ _ _ s Hs) in Hu.
  apply (blocked_invariant_returned num_threads).
  eapply blocked_invariant_rtc; [exact Hn|exact Hs'|].
  unfold blocked_invariant, rescan, in_flight, exited. simpl.
  rewrite Hq, Hu, in_flight_waiting, exited_waiting. simpl.
  repeat split; try constructor; try lia.
Qed.

Lemma workerless_invariant_transition s s' :
  transition s s' → workerless_invariant s → workerless_invariant s'.
Proof.
  unfold workerless_invariant.
  destruct 1 as [port todo q u ws op|q u ws op|q ws op|k q u ws op|q u ws op
                |q u ws op Hex|m port q u ws1 ws2 op|m q u ws1 ws2 op
                |m port q u ws1 ws2 op|m port q ws1 ws2 op];
    simpl; intros [Hws Hmain]; try done; try lia;
    try (by destruct ws1).
  split; [done|]. simpl in Hmain. lia.
Qed.

(** Without workers, a scan of a range that is not empty never returns:
    the caller stays in [queue.join()]. *)
Theorem scan_without_workers_never_returns
    (start_port end_port : Z) (s : state) :
  start_port ≤ end_port →
  reachable connect_ex getservbyport ip 0 start_port end_port s →
  returned s = None.
Proof.
  intros Hrange Hs.
  assert (Hinv : workerless_invariant s).
  { revert s Hs.
    refine (reachable_transition_ind _ _ _ _ _ _ workerless_invariant _ _).
    - unfold workerless_invariant, init. simpl. split; [done|].
      rewrite length_seqZ. lia.
    - apply workerless_invariant_transition. }
  unfold workerless_invariant, returned in *. destruct Hinv as [_ Hmain].
  by destruct (main s).
Qed.

End ScannerBlocked.

Section ScannerSchedules.
Import PortScanner ScanModel.
Variable connect_ex : string → Z → result Z.
Variable getservbyport : Z → result string.
Variable ip : string.
Variables (num_threads : nat) (start_port end_port : Z).

Abbreviation steps_to := (steps_to connect_ex getservbyport ip).
Abbreviation reachable :=
  (reachable connect_ex getservbyport ip num_threads start_port end_port).

Lemma run_rtc schedule s :
  rtc steps_to s (run connect_ex getservbyport ip schedule s).
Proof.
  revert s. induction schedule as [|a schedule IH]; intros s; [done|].
  simpl. destruct (step connect_ex getservbyport ip a s) as [s'|] eqn:Ha.
  - simpl. eapply rtc_l; [by exists a|apply IH].
  - apply IH.
Qed.

Lemma run_nsteps schedule s :
  nsteps steps_to (moves connect_ex getservbyport ip schedule s) s
    (run connect_ex getservbyport ip schedule s).
Proof.
  revert s. induction schedule as [|a schedule IH]; intros s; [constructor|].
  simpl. destruct (step connect_ex getservbyport ip a s) as [s'|] eqn:Ha.
  - simpl. eapply nsteps_l; [by exists a|apply IH].
  - apply IH.
Qed.

(** With at least one worker a scan is never stuck before it returns:
    in every state that it reaches without having returned, the caller or
    a worker can move. *)
Theorem scan_never_stuck (s : state) :
  (1 ≤ num_threads)%nat → reachable s → returned s = None →
  ∃ a s', step connect_ex getservbyport ip a s = Some s'.
Proof.
  intros Hn Hs Hret.
  destruct (queue_invariant_progress connect_ex getservbyport ip s)
    as [s' Hs']; [by eapply reachable_queue_invariant| |done|].
  - pose proof (reachable_workers _ _ _ _ _ _ s Hs) as Hws.
    destruct (workers s); [simpl in Hws; lia|done].
  - apply transition_step in Hs' as [a Ha]. eauto.
Qed.

(** A scan makes at most three moves for each port of its range and three
    for each worker, and four more: every schedule is finite. *)
Theorem scan_moves_bounded (n : nat) (s : state) :
  nsteps steps_to n (init num_threads start_port end_port) s →
  (n ≤ 4 + 3 * Z.to_nat (end_port + 1 - start_port) + 3 * num_threads)%nat.
Proof.
  intros Hn. apply scan_bounded in Hn.
  unfold fuel, phase_rank, sentinels_to_put, todo, in_flight, init in Hn.
  simpl in Hn. rewrite length_seqZ, length_replicate, in_flight_waiting in Hn.
  simpl in Hn. lia.
Qed.

End ScannerSchedules.

(** One worker on the ports 1 and 2, after its first move. *)
Lemma scan_never_stuck_witness :
  ∃ a s',
    PortScanner.step ScanModel.unresolved_target ScanModel.no_services
      "no.such.host" a
      (PortScanner.run ScanModel.unresolved_target ScanModel.no_services
         "no.such.host" [PortScanner.Main] (PortScanner.init 1 1 2))
    = Some s'.
Proof.
  apply (scan_never_stuck ScanModel.unresolved_target ScanModel.no_services
           "no.such.host" 1 1 2).
  - lia.
  - apply run_reachable, rtc_refl.
  - reflexivity.
Defined.

(** The schedule of one worker on the ports 1 and 2 makes 12 moves. *)
Lemma scan_moves_bounded_witness :
  (moves ScanModel.unresolved_target ScanModel.no_services "no.such.host"
     ScanModel.single_schedule (PortScanner.init 1 1 2)
   ≤ 4 + 3 * Z.to_nat (2 + 1 - 1) + 3 * 1)%nat.
Proof.
  apply (scan_moves_bounded ScanModel.unresolved_target ScanModel.no_services
           "no.such.host" 1 1 2 _
           (PortScanner.run ScanModel.unresolved_target ScanModel.no_services
              "no.such.host" ScanModel.single_schedule (PortScanner.init 1 1 2))).
  apply run_nsteps.
Defined.

(** The instance that has scanned the ports 22 to 24 with two workers,
    asked to scan them again. *)
Lemma second_scan_never_returns_witness :
  PortScanner.returned
    (PortScanner.run ScanModel.demo_net ScanModel.no_services "10.0.0.7"
       ScanModel.demo_schedule
       (Rescan.rescan
          (PortScanner.run ScanModel.demo_net ScanModel.no_services "10.0.0.7"
             ScanModel.demo_schedule (PortScanner.init 2 22 24))
          2 22 24))
  = None.
Proof.
  apply (second_scan_never_returns ScanModel.demo_net ScanModel.no_services
           "10.0.0.7" 2 22 24
           (PortScanner.run ScanModel.demo_net ScanModel.no_services "10.0.0.7"
              ScanModel.demo_schedule (PortScanner.init 2 22 24))
           [PortInfo.mk 22 "SSH"; PortInfo.mk 23 "Telnet"] 2 22 24).
  - lia.
  - apply run_reachable, rtc_refl.
  - vm_compute. reflexivity.
  - apply run_rtc.
Defined.

(** No worker, the ports 1 and 2. *)
Lemma scan_without_workers_never_returns_witness :
  PortScanner.returned
    (PortScanner.run ScanModel.demo_net ScanModel.no_services "10.0.0.7"
       (replicate 8 PortScanner.Main) (PortScanner.init 0 1 2))
  = None.
Proof.
  apply (scan_without_workers_never_returns ScanModel.demo_net
           ScanModel.no_services "10.0.0.7" 1 2).
  - lia.
  - apply run_reachable, rtc_refl.
Defined.

(** * Properties of the service resolver *)

Section Resolver.
Import PortScanner RiskEngine.
Variable getservbyport : Z → result string.



(** Every service that the static table of the scanner names has its own
    entry in the table of the risk engine, and every entry of that table
    but [Unknown] is named by a port of the static table. *)
Theorem COMMON_SERVICES_classified :
  (∀ port name, COMMON_SERVICES !! port = Some name →
     get_service_name getservbyport port = name ∧
     name ≠ "Unknown" ∧ is_Some (SERVICE_RISKS !! name)) ∧
  (∀ name, is_Some (SERVICE_RISKS !! name) → name ≠ "Unknown" →
     ∃ port, COMMON_SERVICES !! port = Some name).
Proof.
  split.
  - intros port name Hname. unfold get_service_name. rewrite Hname.
    split; [done|].
    apply elem_of_list_to_map_2 in Hname.
    repeat (apply elem_of_cons in Hname as [Hname|Hname];
            [ injection Hname as -> ->; split; [discriminate|];
              eexists; vm_compute; reflexivity | ]).
    by apply elem_of_nil in Hname.
  - intros name [p Hp] Hne. apply elem_of_list_to_map_2 in Hp.
    unfold SERVICE_RISKS_items in Hp.
    repeat (apply elem_of_cons in Hp as [Hp|Hp];
            [ injection Hp as -> ->;
              first [ done
                    | exists 20; vm_compute; reflexivity
                    | exists 21; vm_compute; reflexivity
                    | exists 22; vm_compute; reflexivity
                    | exists 23; vm_compute; reflexivity
                    | exists 25; vm_compute; reflexivity
                    | exists 53; vm_compute; reflexivity
                    | exists 80; vm_compute; reflexivity
                    | exists 110; vm_compute; reflexivity
                    | exists 143; vm_compute; reflexivity
                    | exists 443; vm_compute; reflexivity
                    | exists 445; vm_compute; reflexivity
                    | exists 3306; vm_compute; reflexivity
                    | exists 3389; vm_compute; reflexivity
                    | exists 5432; vm_compute; reflexivity
                    | exists 5900; vm_compute; reflexivity
                    | exists 8080; vm_compute; reflexivity
                    | exists 8443; vm_compute; reflexivity ] | ]).
    by apply elem_of_nil in Hp.
Qed.


End Resolver.


(** * Further properties of the risk engine *)

Section ScorerMore.
Import RiskEngine.

Lemma RISK_LEVELS_None tier : RISK_LEVELS !! tier = None ↔ tier ∉ TIERS.
Proof.
  unfold RISK_LEVELS. rewrite <- not_elem_of_list_to_map. done.
Qed.

Lemma total_risk_loop_None L acc :
  total_risk_loop acc L = None ↔ Exists (λ r, ¬ well_formed r) L.
Proof.
  revert acc. induction L as [|r L IH]; intros acc; simpl.
  - split; [done|by inversion 1].
  - rewrite Exists_cons. unfold well_formed at 1.
    rewrite <- RISK_LEVELS_None.
    destruct (RISK_LEVELS !! Assessment.risk_level r) as [level|]; simpl.
    + rewrite IH. split; [by right|]. by intros [?|?].
    + split; [by left|done].
Qed.

(** The scorer raises [KeyError] exactly on the lists that hold an
    assessment whose [risk_level] is not HIGH, MEDIUM or LOW; the empty
    list scores 100. *)
Theorem calculate_security_score_KeyError (L : list Assessment.t) :
  calculate_security_score L = None ↔
  Exists (λ r, Assessment.risk_level r ∉ ["HIGH"; "MEDIUM"; "LOW"]) L.
Proof.
  destruct L as [|r L].
  - simpl. split; [done|by inversion 1].
  - unfold calculate_security_score.
    destruct (total_risk_loop 0 (r :: L)) as [total|] eqn:Hloop; simpl.
    + split; [done|]. intros Hex.
      apply (total_risk_loop_None (r :: L) 0) in Hex. congruence.
    + split; [|done]. intros _. by apply (total_risk_loop_None (r :: L) 0).
Qed.

Lemma total_risk_loop_Permutation L L' acc :
  L ≡ₚ L' → total_risk_loop acc L = total_risk_loop acc L'.
Proof.
  intros Hperm. revert acc.
  induction Hperm as [|r L L' _ IH|r1 r2 L|L1 L2 L3 _ IH1 _ IH2]; intros acc.
  - done.
  - simpl. destruct (RISK_LEVELS !! Assessment.risk_level r); simpl; [|done].
    apply IH.
  - simpl.
    destruct (RISK_LEVELS !! Assessment.risk_level r1),
             (RISK_LEVELS !! Assessment.risk_level r2); simpl; try done.
    f_equal. lia.
  - by rewrite IH1.
Qed.

(** The score does not depend on the order of the assessments, and
    neither does the failure of the scorer. *)
Theorem calculate_security_score_Permutation (L L' : list Assessment.t) :
  L ≡ₚ L' → calculate_security_score L = calculate_security_score L'.
Proof.
  intros Hperm. unfold calculate_security_score.
  destruct L as [|r L], L' as [|r' L'].
  - done.
  - by apply Permutation_nil_cons in Hperm.
  - symmetry in Hperm. by apply Permutation_nil_cons in Hperm.
  - by rewrite (total_risk_loop_Permutation _ _ 0 Hperm).
Qed.

(** The two ends of the scale of ratings. *)
Lemma get_security_rating_buckets_iff score :
  (Rating.rating (get_security_rating score) = "EXCELLENT" ↔ 90 ≤ score) ∧
  (score < 30 → Rating.rating (get_security_rating score) = "CRITICAL").
Proof.
  unfold get_security_rating.
  repeat case_bool_decide; simpl; split; try split; try done; try lia.
Qed.

(** The weight of a list of well-formed assessments, from the counts of
    the summary. *)
Lemma total_weight_counts L :
  Forall well_formed L →
  total_weight L
  = 30 * count_level "HIGH" L + 15 * count_level "MEDIUM" L
    + 5 * count_level "LOW" L.
Proof.
  unfold count_level, len.
  induction 1 as [|r L Hr _ IH]; [done|].
  simpl total_weight. rewrite IH, !filter_cons.
  unfold well_formed, TIERS in Hr.
  rewrite !elem_of_cons, elem_of_nil in Hr.
  destruct Hr as [Hr|[Hr|[Hr|[]]]]; rewrite Hr; unfold tier_weight;
    repeat case_bool_decide; repeat case_decide; try done; simpl length; lia.
Qed.

(** The score of well-formed assessments is computed from the three
    counts that the summary reports: 100 minus 30 for each HIGH, 15 for
    each MEDIUM and 5 for each LOW assessment, and 0 when that is
    negative. *)
Theorem calculate_security_score_counts (L : list Assessment.t) (score : Z) :
  Forall well_formed L →
  calculate_security_score L = Some score →
  let summary := generate_executive_summary L score in
  score = Z.max 0 (100 - 30 * Summary.high_risk_count summary
                       - 15 * Summary.medium_risk_count summary
                       - 5 * Summary.low_risk_count summary).
Proof.
  intros HL Hscore. simpl.
  rewrite calculate_security_score_weight in Hscore by done.
  injection Hscore as <-. rewrite total_weight_counts by done. f_equal. lia.
Qed.

Lemma total_weight_pos L : Forall well_formed L → L ≠ [] → 5 ≤ total_weight L.
Proof.
  intros HL Hne. destruct HL as [|r L Hr HL]; [done|]. simpl.
  pose proof (total_weight_nonneg L).
  unfold well_formed, TIERS in Hr. rewrite !elem_of_cons, elem_of_nil in Hr.
  destruct Hr as [Hr|[Hr|[Hr|[]]]]; rewrite Hr; unfold tier_weight;
    repeat case_bool_decide; try done; lia.
Qed.

(** A score of 100 means that no port is open, and any assessment brings
    the score to 95 or less; the score is 0 exactly when the weights add
    up to 100 or more. *)
Theorem calculate_security_score_extremes (L : list Assessment.t) (score : Z) :
  Forall well_formed L →
  calculate_security_score L = Some score →
  (score = 100 ↔ L = []) ∧
  (L ≠ [] → score ≤ 95) ∧
  (score = 0 ↔ 100 ≤ total_weight L).
Proof.
  intros HL Hscore.
  rewrite calculate_security_score_weight in Hscore by done.
  injection Hscore as <-.
  assert (Hpos : L ≠ [] → 5 ≤ total_weight L) by (by apply total_weight_pos).
  pose proof (total_weight_nonneg L).
  split; [|split].
  - split; [|by intros ->].
    intros Hmax. destruct L as [|r L]; [done|].
    assert (5 ≤ total_weight (r :: L)) by (by apply Hpos). lia.
  - intros HL'. apply Hpos in HL'. lia.
  - lia.
Qed.

(** The rating of the score of well-formed assessments is EXCELLENT
    exactly when there is no HIGH and no MEDIUM assessment and at most
    two LOW ones, and it is CRITICAL as soon as there are three HIGH
    ones. *)
Theorem get_security_rating_of_score (L : list Assessment.t) (score : Z) :
  Forall well_formed L →
  calculate_security_score L = Some score →
  let rating := Rating.rating (get_security_rating score) in
  (rating = "EXCELLENT" ↔
     count_level "HIGH" L = 0 ∧ count_level "MEDIUM" L = 0 ∧
     count_level "LOW" L ≤ 2) ∧
  (3 ≤ count_level "HIGH" L → rating = "CRITICAL").
Proof.
  intros HL Hscore. cbv zeta.
  rewrite calculate_security_score_weight in Hscore by done.
  injection Hscore as <-. rewrite total_weight_counts by done.
  pose proof (count_level_nonneg "HIGH" L).
  pose proof (count_level_nonneg "MEDIUM" L).
  pose proof (count_level_nonneg "LOW" L).
  split.
  - rewrite (proj1 (get_security_rating_buckets_iff _)). lia.
  - intros Hhigh.
    apply (proj2 (get_security_rating_buckets_iff _)). lia.
Qed.

End ScorerMore.

Section RatingMore.
Import RiskEngine.

(** A higher score never gets a worse rating. *)
Theorem get_security_rating_monotone (score score' : Z) :
  score ≤ score' →
  (rating_rank (Rating.rating (get_security_rating score))
   ≤ rating_rank (Rating.rating (get_security_rating score')))%nat.
Proof.
  intros Hle. unfold get_security_rating.
  repeat case_bool_decide; simpl; try lia; vm_compute; lia.
Qed.

End RatingMore.

Lemma get_security_rating_monotone_witness :
  (rating_rank (Rating.rating (RiskEngine.get_security_rating 49))
   ≤ rating_rank (Rating.rating (RiskEngine.get_security_rating 50)))%nat.
Proof. apply get_security_rating_monotone. lia. Defined.

Section AssessMore.
Import RiskEngine.

Lemma assess_one_color port_info r :
  assess_one port_info = Some r →
  ∃ level, RISK_LEVELS !! Assessment.risk_level r = Some level ∧
           Assessment.risk_color r = LevelInfo.color level.
Proof.
  unfold assess_one.
  destruct (get_risk_profile (PortInfo.service port_info)) as [profile|];
    [|discriminate].
  cbn [mbind option_bind].
  destruct (RISK_LEVELS !! Profile.risk profile) as [level|] eqn:Hlevel;
    [|discriminate].
  cbn [mbind option_bind]. intros [= <-]. by exists level.
Qed.

Lemma assess_loop_color open_ports risk_results results :
  assess_loop risk_results open_ports = Some results →
  ∃ rs, results = risk_results ++ rs ∧
        Forall2 (λ port_info r, assess_one port_info = Some r) open_ports rs.
Proof.
  revert risk_results.
  induction open_ports as [|port_info rest IH]; intros risk_results;
    cbn [assess_loop].
  - intros [= <-]. exists []. by rewrite app_nil_r.
  - destruct (assess_one port_info) as [r|] eqn:Hr; [|discriminate].
    cbn [mbind option_bind]. intros Hloop.
    destruct (IH _ Hloop) as (rs & -> & Hrs).
    exists (r :: rs). rewrite <- app_assoc. split; [done|]. by constructor.
Qed.

(** The colour of every assessment that [assess_risks] builds is the
    colour of its tier: red for HIGH, amber for MEDIUM, green for LOW. *)
Theorem assess_risks_color
    (open_ports : list PortInfo.t) (results : list Assessment.t) :
  assess_risks open_ports = Some results →
  Forall (λ r,
    (Assessment.risk_level r = "HIGH" ∧ Assessment.risk_color r = "#dc3545") ∨
    (Assessment.risk_level r = "MEDIUM" ∧ Assessment.risk_color r = "#ffc107") ∨
    (Assessment.risk_level r = "LOW" ∧ Assessment.risk_color r = "#28a745"))
    results.
Proof.
  intros Hassess. apply assess_loop_color in Hassess as (rs & -> & Hrs).
  simpl. induction Hrs as [|port_info r open_ports rs Hr _ IH]; [constructor|].
  constructor; [|exact IH].
  apply assess_one_color in Hr as (level & Hlevel & ->).
  apply elem_of_list_to_map_2 in Hlevel.
  rewrite !elem_of_cons, elem_of_nil in Hlevel.
  destruct Hlevel as [[= -> ->]|[[= -> ->]|[[= -> ->]|[]]]]; simpl; auto.
Qed.

End AssessMore.

Lemma assess_risks_color_witness :
  Forall (λ r,
    (Assessment.risk_level r = "HIGH" ∧ Assessment.risk_color r = "#dc3545") ∨
    (Assessment.risk_level r = "MEDIUM" ∧ Assessment.risk_color r = "#ffc107") ∨
    (Assessment.risk_level r = "LOW" ∧ Assessment.risk_color r = "#28a745"))
    demo_assessments.
Proof.
  apply (assess_risks_color demo_ports). vm_compute. reflexivity.
Defined.

Section NarrativesMore.
Import RiskEngine.

Lemma fire_length tier ρ : (length (fire tier ρ) ≤ 1)%nat.
Proof. unfold fire. case_bool_decide; simpl; lia. Qed.

(** The generator returns at least one narrative and at most ten, and
    never the same narrative twice, on every list of assessments. *)
Theorem simulate_attack_scenarios_size (L : list Assessment.t) :
  (1 ≤ length (simulate_attack_scenarios L) ≤ 10)%nat ∧
  NoDup (simulate_attack_scenarios L).
Proof.
  destruct L as [|r L].
  - split; [simpl; lia|]. apply NoDup_singleton.
  - split; [|by apply simulate_attack_scenarios_NoDup].
    rewrite simulate_attack_scenarios_Simulate by done.
    unfold Simulate, fire_rules, HIGH_RULES, MEDIUM_RULES, vigilance_entry.
    rewrite !bind_cons.
    change (@mbind list _ _ _ (fire ?t) []) with (@nil string).
    rewrite !length_app. simpl.
    pose proof (fire_length (tier_of "HIGH" (r :: L)) remote_access_rule).
    pose proof (fire_length (tier_of "HIGH" (r :: L)) lateral_movement_rule).
    pose proof (fire_length (tier_of "HIGH" (r :: L)) database_rule).
    pose proof (fire_length (tier_of "HIGH" (r :: L)) telnet_rule).
    pose proof (fire_length (tier_of "HIGH" (r :: L)) vnc_rule).
    pose proof (fire_length (tier_of "MEDIUM" (r :: L)) web_rule).
    pose proof (fire_length (tier_of "MEDIUM" (r :: L)) email_rule).
    pose proof (fire_length (tier_of "MEDIUM" (r :: L)) dns_rule).
    case_bool_decide; simpl; lia.
Qed.

(** The services that the table of the risk engine puts in the HIGH
    tier. *)
Lemma get_risk_profile_HIGH name profile :
  get_risk_profile name = Some profile → Profile.risk profile = "HIGH" →
  name ∈ ["Telnet"; "FTP"; "SMB"; "RDP"; "VNC"; "MySQL"; "PostgreSQL"].
Proof.
  intros Hp Hhigh. rewrite get_risk_profile_eq in Hp. apply (inj Some) in Hp.
  destruct (SERVICE_RISKS !! name) as [p'|] eqn:Hp'; simpl in Hp;
    subst profile; [|discriminate Hhigh].
  apply elem_of_list_to_map_2 in Hp'. unfold SERVICE_RISKS_items in Hp'.
  repeat (apply elem_of_cons in Hp' as [Hp'|Hp'];
          [ injection Hp' as Hn Hprofile; subst p';
            try discriminate Hhigh; rewrite Hn; set_solver | ]).
  by apply elem_of_nil in Hp'.
Qed.

Lemma assess_risks_Forall2 open_ports results :
  assess_risks open_ports = Some results →
  Forall2 assessment_of open_ports results.
Proof.
  unfold assess_risks. intros Hassess.
  destruct (assess_loop_total open_ports []) as (rs & Hrs & Hall & _).
  rewrite Hrs in Hassess. by injection Hassess as <-.
Qed.

(** On the assessments that [assess_risks] builds, every HIGH assessment
    has a narrative of its own tier: its service is in the group of a HIGH
    rule, whose narrative is returned. *)
Theorem simulate_attack_scenarios_covers_HIGH
    (open_ports : list PortInfo.t) (results : list Assessment.t)
    (r : Assessment.t) :
  assess_risks open_ports = Some results →
  r ∈ results → Assessment.risk_level r = "HIGH" →
  ∃ ρ, ρ ∈ HIGH_RULES ∧ Assessment.service r ∈ group ρ ∧
       narrative ρ (listing (tier_of "HIGH" results))
         ∈ simulate_attack_scenarios results.
Proof.
  intros Hassess Hr Hhigh.
  apply assess_risks_Forall2 in Hassess.
  assert (Hne : results ≠ []) by (intros ->; by apply elem_of_nil in Hr).
  assert (Hservice : Assessment.service r
            ∈ ["Telnet"; "FTP"; "SMB"; "RDP"; "VNC"; "MySQL"; "PostgreSQL"]).
  { apply list_elem_of_lookup in Hr as [i Hi].
    destruct (Forall2_lookup_r _ _ _ _ _ Hassess Hi)
      as (port_info & _ & _ & Hs & profile & Hprofile & Hlevel & _).
    rewrite Hs. eapply get_risk_profile_HIGH; [exact Hprofile|].
    by rewrite <- Hlevel. }
  assert (Htier : r ∈ tier_of "HIGH" results)
    by (by apply list_elem_of_filter).
  assert (Hrule : ∃ ρ, ρ ∈ HIGH_RULES ∧ Assessment.service r ∈ group ρ).
  { rewrite !elem_of_cons, elem_of_nil in Hservice. unfold HIGH_RULES.
    destruct Hservice as [Hs|[Hs|[Hs|[Hs|[Hs|[Hs|[Hs|[]]]]]]]]; rewrite Hs.
    - exists remote_access_rule. simpl. set_solver.
    - exists lateral_movement_rule. simpl. set_solver.
    - exists lateral_movement_rule. simpl. set_solver.
    - exists remote_access_rule. simpl. set_solver.
    - exists vnc_rule. simpl. set_solver.
    - exists database_rule. simpl. set_solver.
    - exists database_rule. simpl. set_solver. }
  destruct Hrule as (ρ & Hρ & Hgroup). exists ρ. split; [done|]. split; [done|].
  rewrite simulate_attack_scenarios_Simulate by done. unfold Simulate.
  apply elem_of_app. left. apply fire_rules_fires; [done|].
  unfold fires. apply Exists_exists. eauto.
Qed.

End NarrativesMore.

Lemma simulate_attack_scenarios_covers_HIGH_witness :
  ∃ ρ, ρ ∈ HIGH_RULES ∧ "Telnet" ∈ group ρ ∧
       narrative ρ (RiskEngine.listing (tier_of "HIGH" demo_assessments))
         ∈ RiskEngine.simulate_attack_scenarios demo_assessments.
Proof.
  apply (simulate_attack_scenarios_covers_HIGH demo_ports demo_assessments
           (Assessment.mk 23 "Telnet" "HIGH" "#dc3545"
              "Unencrypted protocol transmitting credentials in plaintext"
              "Replace with SSH. Disable Telnet service immediately.")).
  - vm_compute. reflexivity.
  - unfold demo_assessments. right. left.
  - reflexivity.
Defined.

Section UnmappedServices.
Import RiskEngine.

Lemma tier_of_all level L :
  Forall (λ r, Assessment.risk_level r = level) L → tier_of level L = L.
Proof.
  unfold tier_of. induction 1 as [|r L Hr _ IH]; [done|].
  rewrite filter_cons. case_decide; [|done]. by rewrite IH.
Qed.

Lemma tier_of_none level level' L :
  level ≠ level' →
  Forall (λ r, Assessment.risk_level r = level) L → tier_of level' L = [].
Proof.
  unfold tier_of. intros Hne. induction 1 as [|r L Hr _ IH]; [done|].
  rewrite filter_cons. case_decide; [congruence|done].
Qed.

Lemma unmapped_assessment port_info r :
  unmapped port_info → assessment_of port_info r →
  Assessment.risk_level r = "MEDIUM" ∧
  ∀ ρ, ρ ∈ MEDIUM_RULES → Assessment.service r ∉ group ρ.
Proof.
  intros Hun (_ & Hservice & profile & Hprofile & Hlevel & _).
  rewrite get_risk_profile_eq in Hprofile. apply (inj Some) in Hprofile.
  rewrite Hservice. split.
  - rewrite Hlevel, <- Hprofile. destruct Hun as [->| ->]; [done|].
    by rewrite SERVICE_RISKS_Unknown.
  - intros ρ Hρ Hin. unfold MEDIUM_RULES in Hρ.
    rewrite !elem_of_cons, elem_of_nil in Hρ.
    destruct Hρ as [->|[->|[->|[]]]]; simpl in Hin;
      rewrite !elem_of_cons, elem_of_nil in Hin;
      destruct Hun as [Hnone|Hunknown];
      repeat (destruct Hin as [Hin|Hin];
              [ first [ rewrite Hin in Hnone; vm_compute in Hnone;
                        discriminate Hnone
                      | rewrite Hin in Hunknown; discriminate Hunknown ] | ]);
      done.
Qed.

(** Open ports whose services have no entry of their own in the risk
    table get no narrative of their own: the generator returns the
    moderate summary alone, with their number, and each of them costs 15
    points. *)
Theorem unmapped_services_report
    (open_ports : list PortInfo.t) (results : list Assessment.t) :
  open_ports ≠ [] → Forall unmapped open_ports →
  assess_risks open_ports = Some results →
  simulate_attack_scenarios results
    = [moderate_summary_text (len open_ports)] ∧
  calculate_security_score results
    = Some (Z.max 0 (100 - 15 * len open_ports)).
Proof.
  intros Hne Hun Hassess.
  pose proof (assess_risks_Forall2 _ _ Hassess) as Hall.
  assert (Hlen : len results = len open_ports)
    by (unfold len; f_equal; symmetry; by eapply Forall2_length).
  assert (Hne' : results ≠ []).
  { intros ->. apply Forall2_nil_inv_r in Hall. done. }
  assert (Hfacts : Forall (λ r, Assessment.risk_level r = "MEDIUM" ∧
                     ∀ ρ, ρ ∈ MEDIUM_RULES → Assessment.service r ∉ group ρ)
                     results).
  { clear -Hun Hall. induction Hall as [|pi r ps rs Hr _ IH]; [constructor|].
    apply Forall_cons in Hun as [Hpi Hps].
    constructor; [by eapply unmapped_assessment|by apply IH]. }
  assert (Hmedium : Forall (λ r, Assessment.risk_level r = "MEDIUM") results)
    by (eapply Forall_impl; [exact Hfacts|by intros r [? _]]).
  assert (Hwf : Forall well_formed results).
  { eapply Forall_impl; [exact Hmedium|].
    intros r Hr. unfold well_formed, TIERS. rewrite Hr. set_solver. }
  split.
  - rewrite simulate_attack_scenarios_Simulate by done.
    unfold Simulate, vigilance_entry, overall_summary.
    rewrite (tier_of_none "MEDIUM" "HIGH") by done.
    rewrite fire_rules_nil, (tier_of_all "MEDIUM") by done.
    rewrite (bool_decide_eq_false_2 (present "LOW" results)).
    2:{ rewrite <- tier_of_nonempty, (tier_of_none "MEDIUM" "LOW") by done.
        by intros []. }
    rewrite (bool_decide_eq_false_2 (present "HIGH" results)).
    2:{ rewrite <- tier_of_nonempty, (tier_of_none "MEDIUM" "HIGH") by done.
        by intros []. }
    rewrite (bool_decide_eq_true_2 (present "MEDIUM" results)).
    2:{ rewrite <- tier_of_nonempty, (tier_of_all "MEDIUM") by done. done. }
    assert (Hfire : fire_rules MEDIUM_RULES results = []).
    { assert (Hno : ∀ ρ, ρ ∈ MEDIUM_RULES → fire results ρ = []).
      { intros ρ Hρ. unfold fire. rewrite bool_decide_eq_false_2; [done|].
        unfold fires. rewrite Exists_exists. intros (r & Hr & Hin).
        eapply Forall_forall in Hfacts as [_ Hout]; [|exact Hr].
        by apply (Hout ρ). }
      unfold fire_rules, MEDIUM_RULES. rewrite !bind_cons.
      rewrite !Hno by (unfold MEDIUM_RULES; set_solver). done. }
    rewrite Hfire, Hlen. done.
  - rewrite calculate_security_score_weight, total_weight_counts by done.
    unfold count_level.
    change (filter (λ r, Assessment.risk_level r = ?l) results)
      with (tier_of l results).
    rewrite (tier_of_none "MEDIUM" "HIGH"), (tier_of_none "MEDIUM" "LOW"),
      (tier_of_all "MEDIUM") by done.
    rewrite Hlen. f_equal. unfold len at 1 3. simpl. lia.
Qed.

End UnmappedServices.

(** The sample and its reverse. *)
Lemma calculate_security_score_Permutation_witness :
  RiskEngine.calculate_security_score demo_assessments
  = RiskEngine.calculate_security_score (reverse demo_assessments).
Proof.
  apply calculate_security_score_Permutation. symmetry. apply reverse_Permutation.
Defined.

Lemma demo_assessments_well_formed : Forall well_formed demo_assessments.
Proof. repeat constructor; unfold well_formed, TIERS; simpl; set_solver. Qed.

(** The sample: 100 - 30 * 2 - 15 * 1 - 5 * 2 = 15. *)
Lemma calculate_security_score_counts_witness :
  let summary := RiskEngine.generate_executive_summary demo_assessments 15 in
  15 = Z.max 0 (100 - 30 * Summary.high_risk_count summary
                    - 15 * Summary.medium_risk_count summary
                    - 5 * Summary.low_risk_count summary).
Proof.
  apply calculate_security_score_counts.
  - apply demo_assessments_well_formed.
  - vm_compute. reflexivity.
Defined.

Lemma calculate_security_score_extremes_witness :
  (15 = 100 ↔ demo_assessments = []) ∧
  (demo_assessments ≠ [] → 15 ≤ 95) ∧
  (15 = 0 ↔ 100 ≤ total_weight demo_assessments).
Proof.
  apply calculate_security_score_extremes.
  - apply demo_assessments_well_formed.
  - vm_compute. reflexivity.
Defined.

Lemma get_security_rating_of_score_witness :
  let rating := Rating.rating (RiskEngine.get_security_rating 15) in
  (rating = "EXCELLENT" ↔
     RiskEngine.count_level "HIGH" demo_assessments = 0 ∧
     RiskEngine.count_level "MEDIUM" demo_assessments = 0 ∧
     RiskEngine.count_level "LOW" demo_assessments ≤ 2) ∧
  (3 ≤ RiskEngine.count_level "HIGH" demo_assessments → rating = "CRITICAL").
Proof.
  apply get_security_rating_of_score.
  - apply demo_assessments_well_formed.
  - vm_compute. reflexivity.
Defined.

(** Two open ports that neither table knows. *)
Lemma unmapped_services_report_witness :
  RiskEngine.simulate_attack_scenarios
    [Assessment.mk 7 "ECHO" "MEDIUM" "#ffc107"
       "Unidentified service requires investigation"
       "Investigate service identity. Close if unnecessary. Ensure proper security.";
     Assessment.mk 9999 "Unknown" "MEDIUM" "#ffc107"
       "Unidentified service requires investigation"
       "Investigate service identity. Close if unnecessary. Ensure proper security."]
    = [RiskEngine.moderate_summary_text
         (len [PortInfo.mk 7 "ECHO"; PortInfo.mk 9999 "Unknown"])] ∧
  RiskEngine.calculate_security_score
    [Assessment.mk 7 "ECHO" "MEDIUM" "#ffc107"
       "Unidentified service requires investigation"
       "Investigate service identity. Close if unnecessary. Ensure proper security.";
     Assessment.mk 9999 "Unknown" "MEDIUM" "#ffc107"
       "Unidentified service requires investigation"
       "Investigate service identity. Close if unnecessary. Ensure proper security."]
    = Some (Z.max 0 (100 - 15 * len [PortInfo.mk 7 "ECHO"; PortInfo.mk 9999 "Unknown"])).
Proof.
  apply (unmapped_services_report
           [PortInfo.mk 7 "ECHO"; PortInfo.mk 9999 "Unknown"]).
  - discriminate.
  - apply Forall_cons. split; [left; vm_compute; reflexivity|].
    apply Forall_cons. split; [right; reflexivity|constructor].
  - vm_compute. reflexivity.
Defined.

(** * Properties of the scan route *)

Section Route.
Import RiskEngine App.

(** The route accepts a range exactly when 1 <= start_port < end_port <=
    65535, so that a range of a single port is refused and an accepted
    range has between 2 and 65535 ports; a start below 1 is reported
    before any other fault. *)
Theorem check_port_range_accepts (start_port end_port : Z) :
  (check_port_range start_port end_port = None ↔
     1 ≤ start_port ∧ start_port < end_port ∧ end_port ≤ 65535) ∧
  (check_port_range start_port end_port = None →
     2 ≤ end_port - start_port + 1 ≤ 65535) ∧
  (start_port < 1 →
     check_port_range start_port end_port = Some "start_port must be >= 1") ∧
  (start_port = end_port → check_port_range start_port end_port ≠ None).
Proof.
  unfold check_port_range.
  repeat case_bool_decide; repeat split; intros; try done; try lia.
Qed.

Lemma simulate_attack_scenarios_nonempty L : simulate_attack_scenarios L ≠ [].
Proof.
  destruct L as [|r L]; [done|].
  rewrite simulate_attack_scenarios_Simulate by done. unfold Simulate.
  rewrite !app_assoc. intros Hnil. by apply app_nil in Hnil as [_ Hnil].
Qed.

(** The response to a scan: whatever list the scanner returns, no
    exception reaches the handler of the route; the score is within 0 and
    100, the rating is that of the score, the three counts add up to the
    number of open ports, which is the number of results, and there is at
    least one narrative. *)
Theorem scan_response_total
    (ip_address : string) (start_port end_port : Z)
    (open_ports : list PortInfo.t) :
  ∃ response,
    scan_response ip_address start_port end_port open_ports = Some response ∧
    0 ≤ Response.security_score response ≤ 100 ∧
    Executive.rating (Response.executive_summary response)
      = Rating.rating (get_security_rating (Response.security_score response)) ∧
    Executive.high_risk_count (Response.executive_summary response)
      + Executive.medium_risk_count (Response.executive_summary response)
      + Executive.low_risk_count (Response.executive_summary response)
      = Metadata.open_ports_count (Response.scan_metadata response) ∧
    len (Response.scan_results response)
      = Metadata.open_ports_count (Response.scan_metadata response) ∧
    Response.attack_simulation response ≠ [] ∧
    (open_ports = [] ↔ Response.security_score response = 100).
Proof.
  unfold scan_response, assess_risks.
  destruct (assess_loop_total open_ports []) as (results & -> & Hall & Hwf).
  simpl app. cbn [mbind option_bind].
  rewrite calculate_security_score_weight by done. cbn [mbind option_bind].
  assert (Hlen : len results = len open_ports)
    by (unfold len; f_equal; symmetry; by eapply Forall2_length).
  pose proof (total_weight_nonneg results) as Hweight.
  eexists. split; [reflexivity|]. simpl.
  split; [lia|]. split; [done|].
  split; [by rewrite count_level_total|]. split; [done|].
  split; [apply simulate_attack_scenarios_nonempty|].
  split.
  - intros ->. by apply Forall2_nil_inv_l in Hall as ->.
  - intros Hmax. destruct results as [|r results].
    + by apply Forall2_nil_inv_r in Hall.
    + assert (5 ≤ total_weight (r :: results))
        by (by apply total_weight_pos). lia.
Qed.

(** What a range that the route accepts satisfies. *)
Lemma check_port_range_bounds start_port end_port :
  check_port_range start_port end_port = None →
  1 ≤ start_port ∧ start_port < end_port ∧ end_port ≤ 65535.
Proof.
  unfold check_port_range. repeat case_bool_decide; intros; try done; lia.
Qed.

End Route.

Section EndToEnd.
Import PortScanner ScanModel RiskEngine App.
Variable connect_ex : string → Z → result Z.
Variable getservbyport : Z → result string.
Variable ip : string.
Variables (num_threads : nat) (start_port end_port : Z).

Lemma scan_response_fields open_ports :
  ∃ response results,
    scan_response ip start_port end_port open_ports = Some response ∧
    Forall2 assessment_of open_ports results ∧
    Response.scan_results response = results ∧
    Response.scan_metadata response
      = Metadata.mk start_port end_port (end_port - start_port + 1)
          (len open_ports).
Proof.
  unfold scan_response, assess_risks.
  destruct (assess_loop_total open_ports []) as (results & -> & Hall & Hwf).
  simpl app. cbn [mbind option_bind].
  rewrite calculate_security_score_weight by done. cbn [mbind option_bind].
  eexists _, results. split; [reflexivity|]. by repeat split.
Qed.

(** From the request to the response: on a range that the route accepts,
    the list that the first scan of the instance returns always gives a
    response; it counts at most as many open ports as the range has
    ports, and its results carry the ports that the scanner returned, in
    ascending order, each between 1 and 65535. *)
Theorem scan_route_end_to_end (s : state) (open_ports : list PortInfo.t) :
  check_port_range start_port end_port = None →
  reachable connect_ex getservbyport ip num_threads start_port end_port s →
  returned s = Some open_ports →
  ∃ response,
    scan_response ip start_port end_port open_ports = Some response ∧
    0 ≤ Metadata.open_ports_count (Response.scan_metadata response)
      ≤ Metadata.total_ports_scanned (Response.scan_metadata response) ∧
    Metadata.total_ports_scanned (Response.scan_metadata response) ≤ 65535 ∧
    Assessment.port <$> Response.scan_results response
      = PortInfo.port <$> open_ports ∧
    Sorted Z.le (Assessment.port <$> Response.scan_results response) ∧
    Forall (λ r, 1 ≤ Assessment.port r ≤ 65535)
      (Response.scan_results response).
Proof.
  intros Hrange Hs Hret.
  apply check_port_range_bounds in Hrange.
  destruct (scan_response_fields open_ports)
    as (response & results & Hresponse & Hall & Hresults & Hmeta).
  exists response. split; [exact Hresponse|]. rewrite Hmeta, Hresults. simpl.
  unfold returned in Hret.
  destruct (main s) as [| | | |res] eqn:Hmain; try discriminate Hret.
  injection Hret as ->.
  destruct (reachable_ports_invariant _ _ _ _ _ _ s Hs) as (Htracked & _ & Hfinal).
  destruct (Hfinal open_ports Hmain) as (Hop & Hsorted & _).
  assert (Hfound : PortInfo.port <$> open_ports
                   ⊆+ seqZ start_port (end_port + 1 - start_port)).
  { etrans; [|exact Htracked]. unfold tracked, found. rewrite <- Hop.
    do 3 apply submseteq_inserts_l. done. }
  assert (Hports : Assessment.port <$> results = PortInfo.port <$> open_ports).
  { clear -Hall. induction Hall as [|pi r ps rs (Hport & _) _ IH]; [done|].
    rewrite !fmap_cons. by f_equal. }
  split; [|split; [lia|split; [done|split]]].
  - apply submseteq_length in Hfound.
    rewrite length_fmap, length_seqZ in Hfound. unfold len. lia.
  - rewrite Hports. exact Hsorted.
  - apply Forall_forall. intros r Hr.
    assert (Hp : Assessment.port r ∈ Assessment.port <$> results)
      by (by apply list_elem_of_fmap_2).
    rewrite Hports in Hp. eapply elem_of_submseteq in Hp; [|exact Hfound].
    apply elem_of_seqZ in Hp. lia.
Qed.

End EndToEnd.

(** The schedule of two workers on the ports 22 to 24. *)
Lemma scan_route_end_to_end_witness :
  ∃ response,
    App.scan_response "10.0.0.7" 22 24
      [PortInfo.mk 22 "SSH"; PortInfo.mk 23 "Telnet"] = Some response ∧
    0 ≤ App.Metadata.open_ports_count (App.Response.scan_metadata response)
      ≤ App.Metadata.total_ports_scanned (App.Response.scan_metadata response) ∧
    App.Metadata.total_ports_scanned (App.Response.scan_metadata response)
      ≤ 65535 ∧
    Assessment.port <$> App.Response.scan_results response
      = PortInfo.port <$> [PortInfo.mk 22 "SSH"; PortInfo.mk 23 "Telnet"] ∧
    Sorted Z.le (Assessment.port <$> App.Response.scan_results response) ∧
    Forall (λ r, 1 ≤ Assessment.port r ≤ 65535)
      (App.Response.scan_results response).
Proof.
  apply (scan_route_end_to_end ScanModel.demo_net ScanModel.no_services
           "10.0.0.7" 2 22 24
           (PortScanner.run ScanModel.demo_net ScanModel.no_services "10.0.0.7"
              ScanModel.demo_schedule (PortScanner.init 2 22 24))).
  - reflexivity.
  - apply run_reachable, rtc_refl.
  - vm_compute. reflexivity.
Defined.
